(** * fsgc: a garbage collector for gorilla/sessions FilesystemStore

    A shallow embedding of [fsgc.go] and the properties of its sweep
    ([Collect]) and of its start/stop lifecycle ([Start], [Stop]).

    The Go code runs against three pieces of state, and the embedding
    keeps them apart:
    - the collector object itself ([GC]: mutex, directory, maxAge,
      interval, ticker);
    - the Go runtime ([Ticker]s created by time.NewTicker and the
      goroutines spawned by [Start]);
    - the operating system ([World]: the file system, the wall clock and
      the list of system calls made so far).  Paths are strings: the
      collector opens [gc.dir] as it is given and removes
      [filepath.Join(gc.dir, name)], which is a cleaned path, and the
      kernel resolves the two independently.

    Every Go function is a computation in a small state monad whose
    outcomes are the three ways a Go call can end: it returns, it panics,
    or it blocks for ever. *)

From stdpp Require Import gmap strings list fin_maps.
From Stdlib Require Import ZArith Lia Ascii.

Local Open Scope Z_scope.

(** ** Package time *)

(** time.Duration is an int64 count of nanoseconds. *)
Abbreviation Duration := Z (only parsing).

Definition minDuration : Duration := - 2 ^ 63.
Definition maxDuration : Duration := 2 ^ 63 - 1.

Definition is_Duration (d : Z) : Prop := minDuration <= d <= maxDuration.

Definition Nanosecond : Duration := 1.
Definition Microsecond : Duration := 1000 * Nanosecond.
Definition Millisecond : Duration := 1000 * Microsecond.
Definition Second : Duration := 1000 * Millisecond.
Definition Minute : Duration := 60 * Second.
Definition Hour : Duration := 60 * Minute.

(** An instant, in nanoseconds since a fixed epoch.  The range of a
    time.Time is far wider than that of a Duration, which is why [Sub]
    saturates. *)
Abbreviation Time := Z (only parsing).

(** t.Sub(u): the duration t-u, clamped to the range of a Duration. *)
Definition time_Sub (t u : Time) : Duration :=
  let d := t - u in
  if d <? minDuration then minDuration
  else if maxDuration <? d then maxDuration
  else d.

(** ** Package path/filepath *)

(** The separator of paths (the collector is modelled on a Unix system). *)
Definition is_sep (c : ascii) : bool := Ascii.eqb c "/"%char.

(** The elements of a path: what stands between its separators. *)
Fixpoint split_sep (s : string) : list string :=
  match s with
  | EmptyString => [EmptyString]
  | String c s' =>
      if is_sep c then EmptyString :: split_sep s'
      else match split_sep s' with
           | x :: xs => String c x :: xs
           | [] => [String c EmptyString]
           end
  end.

Definition rooted (s : string) : bool :=
  match s with String c _ => is_sep c | EmptyString => false end.

(** One step of Clean, on the stack [st] of the elements kept so far
    (the last one first): an empty element and "." are dropped; ".."
    takes the element before it away, unless that is a ".." itself;
    a ".." with nothing before it is dropped at the root and kept
    elsewhere. *)
Definition clean_element (r : bool) (st : list string) (e : string) : list string :=
  if decide (e = "" ∨ e = ".") then st
  else if decide (e = "..") then
    match st with
    | top :: rest => if decide (top = "..") then e :: st else rest
    | [] => if r then [] else [e]
    end
  else e :: st.

Definition clean_elements (r : bool) (es : list string) : list string :=
  reverse (foldl (clean_element r) [] es).

Fixpoint join_elements (es : list string) : string :=
  match es with
  | [] => ""
  | e :: es' => match es' with [] => e | _ => e +:+ "/" +:+ join_elements es' end
  end.

(** filepath.Clean(path): "the shortest path name equivalent to path by
    purely lexical processing".  The path is split at its separators,
    its elements are cleaned one after the other and joined again with
    single separators; a rooted path keeps its root, and a path of which
    nothing is left becomes ".". *)
Definition filepath_Clean (path : string) : string :=
  let r := rooted path in
  let es := clean_elements r (split_sep path) in
  if r then "/" +:+ join_elements es
  else match es with [] => "." | _ => join_elements es end.

(** filepath.Join(dir, name): empty elements are ignored, the others are
    joined with a separator and the result is cleaned; if both are empty
    the result is the empty string. *)
Definition filepath_Join (dir name : string) : string :=
  if decide (dir = "") then
    if decide (name = "") then "" else filepath_Clean name
  else filepath_Clean (dir +:+ "/" +:+ name).

(** ** Package os: the file system the collector sweeps *)

Inductive errno := ENOENT | EACCES | ENOTDIR | EPERM | EBUSY | EIO | EINVAL.

(** The type bits of an os.FileMode; a FileInfo obtained through Readdir
    is the one Lstat gives, so a symbolic link shows as a link. *)
Inductive FileMode :=
| ModeRegular | ModeDir | ModeSymlink | ModeNamedPipe
| ModeSocket | ModeDevice | ModeCharDevice | ModeIrregular.

Record FileInfo := {
  Name : string;
  Mode : FileMode;
  ModTime : Time
}.

Definition IsDir (fi : FileInfo) : bool :=
  match Mode fi with ModeDir => true | _ => false end.

Definition IsRegular (fi : FileInfo) : bool :=
  match Mode fi with ModeRegular => true | _ => false end.

(** What a directory holds under a name.  [i_unlink] is the error that
    removing the entry runs into ([None]: the entry can be removed); it
    stands for permissions, busy mount points and the like. *)
Record Inode := {
  i_mode : FileMode;
  i_mtime : Time;
  i_unlink : option errno
}.

(** What a path names.  [d_open] is the error of opening it, [d_readdir]
    the error of listing it (ENOTDIR when the path names a plain file). *)
Record DirNode := {
  d_open : option errno;
  d_readdir : option errno;
  d_entries : gmap string Inode
}.

(** The file system.  [disk] holds the directories, each under one key
    (its canonical path, say); [resolve] is the path walk of the kernel,
    which follows symbolic links and reads ".." in the directory it has
    reached: it tells which directory a path names, if any.  Several
    paths can name one directory, and a path and its cleaned form need
    not name the same one. *)
Record FileSystem := {
  resolve : string → option string;
  disk : gmap string DirNode
}.

(** [f !! path]: what the kernel finds under [path]. *)
Global Instance FileSystem_lookup : Lookup string DirNode FileSystem :=
  λ path f, resolve f path ≫= λ k, disk f !! k.
Global Arguments FileSystem_lookup : simpl never.

(** A name under which a directory can hold an entry: not empty, not "."
    or "..", no separator in it. *)
Fixpoint no_sep (s : string) : bool :=
  match s with
  | EmptyString => true
  | String c s' => negb (is_sep c) && no_sep s'
  end.

Definition file_name (n : string) : bool :=
  bool_decide (n ≠ "" ∧ n ≠ "." ∧ n ≠ "..") && no_sep n.

(** How the kernel reads the path of an entry: the path of the parent
    directory (all that stands before the last separator; "." if there
    is none and "/" if nothing stands before it) and the last element. *)
Fixpoint split_last (s : string) : option string * string :=
  match s with
  | EmptyString => (None, "")
  | String c s' =>
      match split_last s' with
      | (Some d, b) => (Some (String c d), b)
      | (None, b) => if is_sep c then (Some "", b) else (None, String c b)
      end
  end.

Definition parent_base (path : string) : string * string :=
  match split_last path with
  | (None, b) => (".", b)
  | (Some d, b) => (if decide (d = "") then "/" else d, b)
  end.

(** The entry that a path names: the key of the directory that the
    parent path resolves to, and the name in it.  A path whose last
    element is empty, "." or ".." is not the path of an entry; of the
    cleaned paths, which are all that the collector removes, these are
    "/", "." and the paths that end in "..". *)
Definition entry_of (path : string) (f : FileSystem) : option (string * string) :=
  let (p, b) := parent_base path in
  if file_name b then k ← resolve f p; Some (k, b) else None.

Inductive Syscall :=
| SysOpen (path : string)
| SysReaddir (path : string)
| SysNow
| SysRemove (path : string)
| SysClose (path : string).

Record World := {
  fs : FileSystem;
  clock : Time;
  open_files : list string;
  trace : list Syscall
}.

Definition log (c : Syscall) (w : World) : World :=
  {| fs := fs w; clock := clock w; open_files := open_files w;
     trace := trace w ++ [c] |}.

(** ** Outcomes and the state monad *)

Inductive outcome (A : Type) : Type :=
| Returned (a : A)
| Panicked (msg : string)
| Blocked.
Arguments Returned {A} a.
Arguments Panicked {A} msg.
Arguments Blocked {A}.

Definition Exec (S A : Type) : Type := S → outcome A * S.

Section monad.
Context {S : Type}.

Definition ret {A} (a : A) : Exec S A := λ s, (Returned a, s).

Definition bind {A B} (m : Exec S A) (k : A → Exec S B) : Exec S B :=
  λ s, match m s with
       | (Returned a, s1) => k a s1
       | (Panicked msg, s1) => (Panicked msg, s1)
       | (Blocked, s1) => (Blocked, s1)
       end.

Definition gets {A} (f : S → A) : Exec S A := λ s, (Returned (f s), s).
Definition modify (f : S → S) : Exec S unit := λ s, (Returned tt, f s).

(** [defer cleanup body]: the function body runs, then the deferred
    call, on a normal return and on a panic alike.  A body that blocks
    never reaches its deferred calls. *)
Definition defer {A} (cleanup : Exec S unit) (body : Exec S A) : Exec S A :=
  λ s, match body s with
       | (Blocked, s1) => (Blocked, s1)
       | (r, s1) =>
           match cleanup s1 with
           | (Returned _, s2) => (r, s2)
           | (Panicked msg, s2) => (Panicked msg, s2)
           | (Blocked, s2) => (Blocked, s2)
           end
       end.

(** for _, x := range l { body x } *)
Fixpoint for_range {A} (l : list A) (body : A → Exec S unit) : Exec S unit :=
  match l with
  | [] => ret tt
  | x :: l' => bind (body x) (λ _, for_range l' body)
  end.
End monad.

Notation "'let*' x ':=' m 'in' k" := (bind m (λ x, k))
  (at level 10, x name, m at level 100, k at level 200).
Notation "m ';;' k" := (bind m (λ _, k))
  (at level 100, k at level 200, right associativity).

(** ** System calls *)

Record File := { f_path : string }.

(** os.Open(path) *)
Definition os_Open (path : string) : Exec World (File + errno) :=
  λ w, let w := log (SysOpen path) w in
       match fs w !! path with
       | None => (Returned (inr ENOENT), w)
       | Some d =>
           match d_open d with
           | Some e => (Returned (inr e), w)
           | None =>
               (Returned (inl {| f_path := path |}),
                {| fs := fs w; clock := clock w;
                   open_files := path :: open_files w; trace := trace w |})
           end
       end.

Definition file_info (e : string * Inode) : FileInfo :=
  {| Name := e.1; Mode := i_mode e.2; ModTime := i_mtime e.2 |}.

(** f.Readdir(0): every entry of the directory, as Lstat describes it,
    or an error. *)
Definition Readdir (f : File) : Exec World (list FileInfo + errno) :=
  λ w, let w := log (SysReaddir (f_path f)) w in
       match fs w !! f_path f with
       | None => (Returned (inr ENOENT), w)
       | Some d =>
           match d_readdir d with
           | Some e => (Returned (inr e), w)
           | None => (Returned (inl (file_info <$> map_to_list (d_entries d))), w)
           end
       end.

Fixpoint remove_first (x : string) (l : list string) : list string :=
  match l with
  | [] => []
  | y :: l' => if decide (x = y) then l' else y :: remove_first x l'
  end.

(** f.Close(); its error is dropped by the deferred call. *)
Definition Close (f : File) : Exec World unit :=
  λ w, let w := log (SysClose (f_path f)) w in
       (Returned tt,
        {| fs := fs w; clock := clock w;
           open_files := remove_first (f_path f) (open_files w);
           trace := trace w |}).

(** time.Now() *)
Definition time_Now : Exec World Time :=
  λ w, let w := log SysNow w in (Returned (clock w), w).

Definition without (name : string) (d : DirNode) : DirNode :=
  {| d_open := d_open d; d_readdir := d_readdir d;
     d_entries := delete name (d_entries d) |}.

(** The file system once the entry that [path] names is unlinked. *)
Definition unlink (path : string) (f : FileSystem) : FileSystem :=
  match entry_of path f with
  | None => f
  | Some (k, b) => {| resolve := resolve f; disk := alter (without b) k (disk f) |}
  end.

(** What os.Remove(path) runs into, [None] if the entry can be removed. *)
Definition remove_error (path : string) (f : FileSystem) : option errno :=
  match entry_of path f with
  | None => Some (if decide (path = "") then ENOENT else EINVAL)
  | Some (k, b) =>
      match disk f !! k with
      | None => Some ENOENT
      | Some d =>
          match d_entries d !! b with
          | None => Some ENOENT
          | Some i => i_unlink i
          end
      end
  end.

(** os.Remove(path): the entry is gone on success, and the file system is
    as it was on an error. *)
Definition os_Remove (path : string) : Exec World (option errno) :=
  λ w, let w := log (SysRemove path) w in
       match remove_error path (fs w) with
       | Some e => (Returned (Some e), w)
       | None =>
           (Returned None,
            {| fs := unlink path (fs w); clock := clock w;
               open_files := open_files w; trace := trace w |})
       end.

(** strings.HasPrefix(s, prefix) *)
Definition strings_HasPrefix (s prefix : string) : bool := String.prefix prefix s.

(** ** The collector *)

(** GC is a garbage collector.  [mu] tells whether the mutex is held;
    [ticker] is the *time.Ticker, [None] for nil, and a ticker is named
    by its index among the tickers of the runtime. *)
Record GC := {
  mu : bool;
  dir : string;
  maxAge : Duration;
  interval : Duration;
  ticker : option nat
}.

Definition DefaultMaxAge : Duration := 7 * 24 * Hour.
Definition DefaultInterval : Duration := 1 * Hour.

(** New(dir): the composite literal, with the mutex and the ticker at
    their zero values.  Nothing is called, so the world is handed back as
    it came. *)
Definition New (d : string) : Exec World GC :=
  ret {| mu := false; dir := d; maxAge := DefaultMaxAge;
         interval := DefaultInterval; ticker := None |}.

(** ** The Go runtime: tickers and goroutines *)

(** A time.Ticker, as package time documents it.  [next_tick] is the
    instant of its next tick; [pending] says that a tick waits in the
    channel C, which NewTicker makes with room for one value (a tick that
    finds it full is dropped, "to make up for slow receivers"); [closed]
    is the state of the channel.  Stop turns [active] off, so that no
    more ticks are sent, and "does not close the channel". *)
Record Ticker := {
  period : Duration;
  next_tick : Time;
  active : bool;
  pending : bool;
  closed : bool
}.

(** The goroutine that [Start] spawns:
      for _ = range gc.ticker.C { gc.Collect() }
    - [GoSpawned]: it has not yet evaluated the range expression
      gc.ticker.C;
    - [GoReceive t]: it waits for a value on the channel of ticker [t];
    - [GoBody t]: it has received a tick and is about to call Collect;
    - [GoDone]: the loop has ended and the goroutine has returned. *)
Inductive Goroutine :=
| GoSpawned
| GoReceive (t : nat)
| GoBody (t : nat)
| GoDone.

Record System := {
  gc : GC;
  tickers : list Ticker;
  goroutines : list Goroutine;
  world : World
}.

Definition with_gc (f : GC → GC) (s : System) : System :=
  {| gc := f (gc s); tickers := tickers s; goroutines := goroutines s;
     world := world s |}.

Definition with_tickers (f : list Ticker → list Ticker) (s : System) : System :=
  {| gc := gc s; tickers := f (tickers s); goroutines := goroutines s;
     world := world s |}.

Definition with_goroutines (f : list Goroutine → list Goroutine) (s : System) : System :=
  {| gc := gc s; tickers := tickers s; goroutines := f (goroutines s);
     world := world s |}.

Definition set_mu (b : bool) (g : GC) : GC :=
  {| mu := b; dir := dir g; maxAge := maxAge g; interval := interval g;
     ticker := ticker g |}.

Definition set_maxAge (d : Duration) (g : GC) : GC :=
  {| mu := mu g; dir := dir g; maxAge := d; interval := interval g;
     ticker := ticker g |}.

Definition set_interval (d : Duration) (g : GC) : GC :=
  {| mu := mu g; dir := dir g; maxAge := maxAge g; interval := d;
     ticker := ticker g |}.

Definition set_ticker (t : option nat) (g : GC) : GC :=
  {| mu := mu g; dir := dir g; maxAge := maxAge g; interval := interval g;
     ticker := t |}.

(** A system call made by the collector acts on the world alone. *)
Definition sys {A} (m : Exec World A) : Exec System A :=
  λ s, let (r, w) := m (world s) in
       (r, {| gc := gc s; tickers := tickers s; goroutines := goroutines s;
              world := w |}).

(** gc.mu.Lock(): a caller that finds the mutex held waits. *)
Definition Lock : Exec System unit :=
  λ s, if mu (gc s) then (Blocked, s)
       else (Returned tt, with_gc (set_mu true) s).

(** gc.mu.Unlock() *)
Definition Unlock : Exec System unit :=
  λ s, if mu (gc s) then (Returned tt, with_gc (set_mu false) s)
       else (Panicked "sync: unlock of unlocked mutex", s).

(** time.NewTicker(d): it panics unless d is positive; the first tick is
    due one period from now. *)
Definition time_NewTicker (d : Duration) : Exec System nat :=
  λ s, if d <=? 0 then (Panicked "non-positive interval for NewTicker", s)
       else (Returned (length (tickers s)),
             with_tickers
               (λ ts, ts ++ [{| period := d; next_tick := clock (world s) + d;
                                active := true; pending := false;
                                closed := false |}]) s).

Definition stopped (k : Ticker) : Ticker :=
  {| period := period k; next_tick := next_tick k; active := false;
     pending := pending k; closed := closed k |}.

(** t.Stop(): no more ticks will be sent; the channel is not closed. *)
Definition Ticker_Stop (t : nat) : Exec System unit :=
  modify (with_tickers (alter stopped t)).

(** go func() { ... }() *)
Definition go_loop : Exec System unit :=
  modify (with_goroutines (λ gs, gs ++ [GoSpawned])).

(** MaxAge sets the max age for the session.  (The Go method returns its
    receiver; with one collector in the system there is nothing to
    return.) *)
Definition MaxAge (dur : Duration) : Exec System unit :=
  Lock ;;
  defer Unlock (modify (with_gc (set_maxAge dur))).

(** Interval sets the interval between collections. *)
Definition Interval (dur : Duration) : Exec System unit :=
  Lock ;;
  defer Unlock (modify (with_gc (set_interval dur))).

(** Start starts the garbage collector. *)
Definition Start : Exec System unit :=
  Lock ;;
  defer Unlock (
    let* tk := gets (λ s, ticker (gc s)) in
    match tk with
    | Some _ => ret tt (* already started *)
    | None =>
        let* d := gets (λ s, interval (gc s)) in
        let* t := time_NewTicker d in
        modify (with_gc (set_ticker (Some t))) ;;
        go_loop
    end).

(** Stop stops the garbage collector. *)
Definition Stop : Exec System unit :=
  Lock ;;
  defer Unlock (
    let* tk := gets (λ s, ticker (gc s)) in
    match tk with
    | None => ret tt (* not started *)
    | Some t =>
        Ticker_Stop t ;;
        modify (with_gc (set_ticker None))
    end).

(** The body of the loop of Collect, for the entry [fi] and the
    timestamp [now] taken before the loop. *)
Definition Collect_entry (now : Time) (fi : FileInfo) : Exec System unit :=
  if IsDir fi || negb (strings_HasPrefix (Name fi) "session_")
  then ret tt (* continue *)
  else
    let* age := gets (λ s, maxAge (gc s)) in
    if age <? time_Sub now (ModTime fi) then
      (* Session file expired, delete it.  Ignore errors. *)
      let* d := gets (λ s, dir (gc s)) in
      sys (os_Remove (filepath_Join d (Name fi))) ;;
      ret tt
    else ret tt.

(** Collect runs the garbage collection immediately. *)
Definition Collect : Exec System (option errno) :=
  Lock ;;
  defer Unlock (
    let* d := gets (λ s, dir (gc s)) in
    let* r := sys (os_Open d) in
    match r with
    | inr err => ret (Some err)
    | inl f =>
        defer (sys (Close f)) (
          let* r := sys (Readdir f) in
          match r with
          | inr err => ret (Some err)
          | inl fis =>
              let* now := sys time_Now in
              for_range fis (Collect_entry now) ;;
              ret None
          end)
    end).

(** ** The running program

    The methods hold the mutex from their first statement to their last,
    so each call is one step of the program.  The other steps are those
    of the runtime: time passes, a ticker sends a tick, a goroutine
    spawned by [Start] moves on. *)

Inductive Process :=
| Alive (s : System)
| Crashed (msg : string) (s : System).

Inductive Label :=
| CallMaxAge (d : Duration)
| CallInterval (d : Duration)
| CallStart
| CallStop
| CallCollect
| Advance (d : Duration)
| Fire (t : nat)
| Run (i : nat).

(** A call that returns leaves the program alive, a panic that nobody
    recovers ends it, and a blocked call is a step that cannot be taken. *)
Definition complete {A} (r : outcome A * System) : option Process :=
  match r with
  | (Returned _, s) => Some (Alive s)
  | (Panicked msg, s) => Some (Crashed msg s)
  | (Blocked, _) => None
  end.

Definition advance (d : Duration) (s : System) : System :=
  {| gc := gc s; tickers := tickers s; goroutines := goroutines s;
     world := {| fs := fs (world s); clock := clock (world s) + d;
                 open_files := open_files (world s);
                 trace := trace (world s) |} |}.

(** The runtime sends on the channel of a ticker: the tick is buffered
    and the next one is due a period later. *)
Definition ticked (k : Ticker) : Ticker :=
  {| period := period k; next_tick := next_tick k + period k;
     active := active k; pending := true; closed := closed k |}.

(** A goroutine takes the buffered tick out of the channel. *)
Definition received (k : Ticker) : Ticker :=
  {| period := period k; next_tick := next_tick k; active := active k;
     pending := false; closed := closed k |}.

Definition step (l : Label) (s : System) : option Process :=
  match l with
  | CallMaxAge d => complete (MaxAge d s)
  | CallInterval d => complete (Interval d s)
  | CallStart => complete (Start s)
  | CallStop => complete (Stop s)
  | CallCollect => complete (Collect s)
  | Advance d => if 0 <=? d then Some (Alive (advance d s)) else None
  | Fire t =>
      match tickers s !! t with
      | Some k =>
          if active k && (next_tick k <=? clock (world s))
          then Some (Alive (with_tickers (λ ts, <[t := ticked k]> ts) s))
          else None
      | None => None
      end
  | Run i =>
      match goroutines s !! i with
      | Some GoSpawned =>
          (* the range expression gc.ticker.C, read without the mutex *)
          match ticker (gc s) with
          | None =>
              Some (Crashed
                      "runtime error: invalid memory address or nil pointer dereference"
                      s)
          | Some t => Some (Alive (with_goroutines (λ gs, <[i := GoReceive t]> gs) s))
          end
      | Some (GoReceive t) =>
          match tickers s !! t with
          | Some k =>
              if pending k then
                Some (Alive (with_goroutines (λ gs, <[i := GoBody t]> gs)
                               (with_tickers (λ ts, <[t := received k]> ts) s)))
              else if closed k then
                Some (Alive (with_goroutines (λ gs, <[i := GoDone]> gs) s))
              else None
          | None => None
          end
      | Some (GoBody t) =>
          (* gc.Collect() // ignore error *)
          match Collect s with
          | (Returned _, s') =>
              Some (Alive (with_goroutines (λ gs, <[i := GoReceive t]> gs) s'))
          | (Panicked msg, s') => Some (Crashed msg s')
          | (Blocked, _) => None
          end
      | Some GoDone | None => None
      end
  end.

Fixpoint run (ls : list Label) (p : Process) : option Process :=
  match ls with
  | [] => Some p
  | l :: ls' =>
      match p with
      | Alive s =>
          match step l s with
          | Some p' => run ls' p'
          | None => None
          end
      | Crashed _ _ => None
      end
  end.

(** The program just after gc := New(dir): no ticker, no goroutine. *)
Definition boot (g : GC) (w : World) : System :=
  {| gc := g; tickers := []; goroutines := []; world := w |}.

(** ** Vocabulary of the statements *)

(** The entries that a sweep at [now] with threshold [age] is to delete:
    not a directory, named session_..., older than [age]. *)
Definition eligible (now : Time) (age : Duration) (fi : FileInfo) : bool :=
  negb (IsDir fi)
  && strings_HasPrefix (Name fi) "session_"
  && (age <? time_Sub now (ModTime fi)).

(** The listing of a directory, as Readdir returns it. *)
Definition listing (d : DirNode) : list FileInfo :=
  file_info <$> map_to_list (d_entries d).

(** The removals among a list of system calls. *)
Definition removals (tr : list Syscall) : list string :=
  omap (λ c, match c with SysRemove p => Some p | _ => None end) tr.

(** The system calls made since the trace had length [n]. *)
Definition since (n : nat) (w : World) : list Syscall := drop n (trace w).

Definition with_world (f : World → World) (s : System) : System :=
  {| gc := gc s; tickers := tickers s; goroutines := goroutines s;
     world := f (world s) |}.

(** The effect of the loop of Collect on the world. *)
Fixpoint sweep (now : Time) (age : Duration) (d : string)
    (l : list FileInfo) (w : World) : World :=
  match l with
  | [] => w
  | fi :: l' =>
      sweep now age d l'
        (if eligible now age fi
         then (os_Remove (filepath_Join d (Name fi)) w).2 else w)
  end.

(** The file system after os.Remove(path). *)
Definition removed (path : string) (f : FileSystem) : FileSystem :=
  match remove_error path f with
  | Some _ => f
  | None => unlink path f
  end.

(** The file system after a removal of each of the paths, in turn. *)
Definition removed_all (ps : list string) (f : FileSystem) : FileSystem :=
  foldl (λ f p, removed p f) f ps.

(** The path [p] can be cleaned: to the kernel, its cleaned form names
    the directory that [p] names.  (It fails for link/../sessions when
    link is a symbolic link to a directory elsewhere: the kernel goes up
    from the target of the link, and Clean takes "link/.." away.) *)
Definition cleanable (f : FileSystem) (p : string) : Prop :=
  resolve f (filepath_Clean p) = resolve f p.

(** The entries of the directory are held under file names, as they are
    in every directory that a kernel lists. *)
Definition file_names (d : DirNode) : bool :=
  forallb (λ fi, file_name (Name fi)) (listing d).

(** What is left of an entry once a removal has been tried on it. *)
Definition after_remove (i : Inode) : option Inode :=
  match i_unlink i with None => None | Some _ => Some i end.

(** Whether opening and listing the directory of the collector works. *)
Definition dir_error (s : System) : option errno :=
  match fs (world s) !! dir (gc s) with
  | None => Some ENOENT
  | Some d =>
      match d_open d with
      | Some e => Some e
      | None => d_readdir d
      end
  end.

(** The world after a sweep of the directory [d] that could be opened
    and listed. *)
Definition Collect_world (g : GC) (d : DirNode) (w : World) : World :=
  (Close {| f_path := dir g |}
     (sweep (clock w) (maxAge g) (dir g) (listing d)
        (log SysNow (log (SysReaddir (dir g)) (os_Open (dir g) w).2)))).2.

(** ** Vocabulary of the lifecycle *)

(** The ticker that [Start] creates in the state [s]. *)
Definition new_ticker (s : System) : Ticker :=
  {| period := interval (gc s); next_tick := clock (world s) + interval (gc s);
     active := true; pending := false; closed := false |}.

(** The state in which [Start] leaves a stopped collector. *)
Definition started (s : System) : System :=
  {| gc := set_ticker (Some (length (tickers s))) (gc s);
     tickers := tickers s ++ [new_ticker s];
     goroutines := goroutines s ++ [GoSpawned];
     world := world s |}.

(** The state in which [Stop] leaves a collector that runs on ticker [t]. *)
Definition halted (t : nat) (s : System) : System :=
  {| gc := set_ticker None (gc s);
     tickers := alter stopped t (tickers s);
     goroutines := goroutines s;
     world := world s |}.

(** A state between two steps of the program: the mutex is free, no
    channel is closed, the tickers that still tick are the one the
    collector holds, and no goroutine has returned. *)
Record consistent (s : System) : Prop := {
  cs_unlocked : mu (gc s) = false;
  cs_open : ∀ t k, tickers s !! t = Some k → closed k = false;
  cs_active : ∀ t k, tickers s !! t = Some k → active k = true →
              ticker (gc s) = Some t;
  cs_handle : ∀ t, ticker (gc s) = Some t →
              ∃ k, tickers s !! t = Some k ∧ active k = true;
  cs_loops : ∀ i, goroutines s !! i ≠ Some GoDone
}.

(** Goroutine [j] waits on the channel of ticker [t], which has been
    stopped, holds no tick and is not closed. *)
Definition stuck (j t : nat) (s : System) : Prop :=
  goroutines s !! j = Some (GoReceive t)
  ∧ ∃ k, tickers s !! t = Some k
         ∧ active k = false ∧ pending k = false ∧ closed k = false.

(** A step that runs a sweep: a call of Collect by the user, or the call
    in the loop of a goroutine that has received a tick. *)
Definition sweep_step (l : Label) (s : System) : Prop :=
  l = CallCollect ∨ ∃ i t, l = Run i ∧ goroutines s !! i = Some (GoBody t).

Definition is_CallMaxAge (l : Label) : bool :=
  match l with CallMaxAge _ => true | _ => false end.

(** The removals of a sweep that runs in state [s] with threshold [age]. *)
Definition swept (age : Duration) (s : System) : list string :=
  match dir_error s, fs (world s) !! dir (gc s) with
  | None, Some d =>
      (λ fi, filepath_Join (dir (gc s)) (Name fi))
        <$> filter (λ fi, eligible (clock (world s)) age fi) (listing d)
  | _, _ => []
  end.

(** The goroutines that are in the sweep loop. *)
Definition in_loop (r : Goroutine) : bool :=
  match r with GoReceive _ | GoBody _ => true | _ => false end.

Definition sweep_loops (s : System) : nat :=
  length (filter (λ r, in_loop r) (goroutines s)).

(** ** Vocabulary of the schedule *)

(** A sweep opens the directory first, and nothing else opens a file:
    the sweeps among a list of system calls are its calls of Open. *)
Definition is_SysOpen (c : Syscall) : bool :=
  match c with SysOpen _ => true | _ => false end.

Definition sweeps (tr : list Syscall) : nat :=
  length (filter (λ c, is_SysOpen c) tr).

(** The goroutines that have received a tick and are about to sweep. *)
Definition is_GoBody (r : Goroutine) : bool :=
  match r with GoBody _ => true | _ => false end.

Definition sweeping (s : System) : nat :=
  length (filter (λ r, is_GoBody r) (goroutines s)).

(** No ticker ticks, no tick waits in a channel and no goroutine is
    about to sweep: the state of a collector that has not been started,
    and of one that was stopped while its goroutines waited. *)
Definition idle (s : System) : Prop :=
  (∀ t k, tickers s !! t = Some k → active k = false ∧ pending k = false)
  ∧ sweeping s = 0%nat.

(** The goroutine [i] waits on the channel of the ticker [t], which
    ticks with period [d], holds no tick and is due one period from
    now. *)
Definition waiting (d : Duration) (t i : nat) (s : System) : Prop :=
  mu (gc s) = false
  ∧ goroutines s !! i = Some (GoReceive t)
  ∧ ∃ k, tickers s !! t = Some k ∧ period k = d ∧ active k = true
         ∧ pending k = false ∧ next_tick k = clock (world s) + d.

(** The steps that leave the schedule to itself: those of the runtime and
    the two setters. *)
Definition keeps_schedule (l : Label) : bool :=
  match l with CallStart | CallStop | CallCollect => false | _ => true end.

(** A prompt runtime: a period passes, the ticker [t] ticks, and the
    goroutine [i] takes the tick and runs the sweep. *)
Definition round (d : Duration) (t i : nat) : list Label :=
  [Advance d; Fire t; Run i; Run i].

Fixpoint rounds (n : nat) (d : Duration) (t i : nat) : list Label :=
  match n with
  | O => []
  | S n' => round d t i ++ rounds n' d t i
  end.

(** ** A session directory, for the examples

    The directory of the test of the package, and more: session_1 is
    eight days old and session_2 is fresh; there is a file that is no
    session, a subdirectory and a symbolic link with the name of a
    session, a session that is seven days old to the nanosecond, and an
    old session that cannot be removed. *)

Definition day : Duration := 24 * Hour.

Definition example_now : Time := 20000 * day.

Definition example_entries : gmap string Inode :=
  list_to_map
    [("session_1", {| i_mode := ModeRegular; i_mtime := example_now - 8 * day;
                      i_unlink := None |});
     ("session_2", {| i_mode := ModeRegular; i_mtime := example_now;
                      i_unlink := None |});
     ("notes.txt", {| i_mode := ModeRegular; i_mtime := example_now - 8 * day;
                      i_unlink := None |});
     ("session_dir", {| i_mode := ModeDir; i_mtime := example_now - 8 * day;
                        i_unlink := None |});
     ("session_link", {| i_mode := ModeSymlink; i_mtime := example_now - 9 * day;
                         i_unlink := None |});
     ("session_edge", {| i_mode := ModeRegular; i_mtime := example_now - 7 * day;
                         i_unlink := None |});
     ("session_locked", {| i_mode := ModeRegular; i_mtime := example_now - 9 * day;
                           i_unlink := Some EACCES |})].

Definition example_node : DirNode :=
  {| d_open := None; d_readdir := None; d_entries := example_entries |}.

(** A file system without symbolic links, its directories held under
    their cleaned paths: a path names what its cleaned form names. *)
Definition plain (m : gmap string DirNode) : FileSystem :=
  {| resolve := λ p, Some (filepath_Clean p); disk := m |}.

Definition example_world : World :=
  {| fs := plain {[ "/var/sessions" := example_node ]}; clock := example_now;
     open_files := []; trace := [] |}.

Definition example_gc : GC :=
  {| mu := false; dir := "/var/sessions"; maxAge := DefaultMaxAge;
     interval := DefaultInterval; ticker := None |}.

Definition example_system : System := boot example_gc example_world.

(** The same collector after its directory has been removed. *)
Definition example_gone : System :=
  boot example_gc
    {| fs := plain ∅; clock := example_now; open_files := []; trace := [] |}.

(** The state a run leads to (the starting state if the run is not one of
    the program or ends in a crash). *)
Definition state_after (ls : list Label) (s : System) : System :=
  match run ls (Alive s) with
  | Some (Alive s') => s'
  | _ => s
  end.

(** The example collector is given twelve hours as its max age, is
    started, and its goroutine has received the first tick, one hour
    later. *)
Definition example_schedule : list Label :=
  [CallStart; Run 0; Advance Hour; Fire 0; Run 0].

Definition example_ticked : System :=
  state_after (CallMaxAge (12 * Hour) :: example_schedule) example_system.

Definition example_swept : System := state_after [Run 0] example_ticked.

(** ** Vocabulary of the further properties *)

(** The steps that the runtime takes on its own: time passes, a ticker
    ticks, a goroutine moves on. *)
Definition runtime_step (l : Label) : bool :=
  match l with Advance _ | Fire _ | Run _ => true | _ => false end.

Definition is_CallStart (l : Label) : bool :=
  match l with CallStart => true | _ => false end.

(** A second directory beside the one of the example collector, with an
    old session of its own. *)
Definition example_shared_world : World :=
  {| fs := plain
             (<["/var/other" :=
                 {| d_open := None; d_readdir := None;
                    d_entries :=
                      {[ "session_9" := {| i_mode := ModeRegular;
                                           i_mtime := example_now - 30 * day;
                                           i_unlink := None |} ]} |}]>
                {[ "/var/sessions" := example_node ]});
     clock := example_now; open_files := []; trace := [] |}.

(** The directory of TestGC: session_1 was last modified ten minutes
    more than DefaultMaxAge ago, session_2 just now; the collector gets
    an interval of 100 milliseconds. *)
Definition test_world : World :=
  {| fs := plain
             {[ "/tmp/fsgc" :=
                 {| d_open := None; d_readdir := None;
                    d_entries :=
                      list_to_map
                        [("session_1",
                          {| i_mode := ModeRegular;
                             i_mtime := example_now - (DefaultMaxAge + 10 * Minute);
                             i_unlink := None |});
                         ("session_2",
                          {| i_mode := ModeRegular; i_mtime := example_now;
                             i_unlink := None |})] |} ]};
     clock := example_now; open_files := []; trace := [] |}.

Definition test_gc : GC :=
  {| mu := false; dir := "/tmp/fsgc"; maxAge := DefaultMaxAge;
     interval := 100 * Millisecond; ticker := None |}.

(** The world after a sweep that could not open, or could not list, the
    directory: the file that was opened, if any, is closed again. *)
Definition Collect_world_failed (g : GC) (w : World) : World :=
  match os_Open (dir g) w with
  | (Returned (inl f), w1) => (Close f (Readdir f w1).2).2
  | (_, w1) => w1
  end.

(** ** A directory behind a symbolic link

    The program runs in /srv/app, where link is a symbolic link to
    /srv/archive/current, and the collector is given the directory
    link/../sessions.  The kernel reads that path as
    /srv/archive/sessions, which holds a session that is thirty days old.
    The cleaned path is sessions, which the kernel reads as
    /srv/app/sessions: it holds a session of the same name, written just
    now. *)
Definition old_session : Inode :=
  {| i_mode := ModeRegular; i_mtime := example_now - 30 * day;
     i_unlink := None |}.

Definition new_session : Inode :=
  {| i_mode := ModeRegular; i_mtime := example_now; i_unlink := None |}.

Definition linked_fs : FileSystem :=
  {| resolve := λ p,
       if decide (p = "link/../sessions") then Some "/srv/archive/sessions"
       else if decide (p = "sessions") then Some "/srv/app/sessions"
       else None;
     disk :=
       {[ "/srv/archive/sessions" :=
            {| d_open := None; d_readdir := None;
               d_entries := {[ "session_1" := old_session ]} |};
          "/srv/app/sessions" :=
            {| d_open := None; d_readdir := None;
               d_entries := {[ "session_1" := new_session ]} |} ]} |}.

Definition linked_system : System :=
  boot {| mu := false; dir := "link/../sessions"; maxAge := DefaultMaxAge;
          interval := DefaultInterval; ticker := None |}
       {| fs := linked_fs; clock := example_now; open_files := [];
          trace := [] |}.

(** The collector of the package documentation, whose directory is
    written with a separator at its end. *)
Definition slash_system : System :=
  boot {| mu := false; dir := "/var/sessions/"; maxAge := DefaultMaxAge;
          interval := DefaultInterval; ticker := None |}
       example_world.
(** * Properties *)

(** ** Durations *)

Lemma DefaultMaxAge_hours : DefaultMaxAge = 168 * Hour.
Proof. reflexivity. Qed.

Lemma DefaultMaxAge_ns : DefaultMaxAge = 604800000000000.
Proof. reflexivity. Qed.

Lemma DefaultInterval_ns : DefaultInterval = 3600000000000.
Proof. reflexivity. Qed.

Lemma time_Sub_is_Duration t u : is_Duration (time_Sub t u).
Proof.
  unfold time_Sub, is_Duration, minDuration, maxDuration; cbn zeta.
  repeat case_match; lia.
Qed.

Lemma time_Sub_exact t u : is_Duration (t - u) → time_Sub t u = t - u.
Proof.
  unfold time_Sub, is_Duration, minDuration, maxDuration; cbn zeta.
  intros H. repeat case_match; lia.
Qed.

(** Below the largest duration, comparing the clamped difference with a
    threshold is comparing the difference itself. *)
Lemma time_Sub_exceeds t u (age : Duration) :
  minDuration <= age < maxDuration → (age < time_Sub t u ↔ age < t - u).
Proof.
  unfold time_Sub, minDuration, maxDuration; cbn zeta.
  intros H. repeat case_match; lia.
Qed.

(** ** Paths *)

(** Clean on the table of the tests of package path/filepath, and Join
    on the directories of the examples. *)
Lemma filepath_Clean_examples :
  filepath_Clean
    <$> ["abc"; "abc/def"; "a/b/c"; "."; ".."; "../.."; "../../abc"; "/abc";
         "/"; ""; "abc/"; "abc/def/"; "a/b/c/"; "./"; "../"; "../../";
         "/abc/"; "abc//def//ghi"; "//abc"; "///abc"; "//abc//"; "abc//";
         "abc/./def"; "/./abc/def"; "abc/."; "abc/def/ghi/../jkl";
         "abc/def/../ghi/../jkl"; "abc/def/.."; "abc/def/../..";
         "/abc/def/../.."; "abc/def/../../.."; "/abc/def/../../..";
         "abc/def/../../../ghi/jkl/../../../mno"; "/../abc";
         "abc/./../def"; "abc//./../def"; "abc/../../././../def"]
  = ["abc"; "abc/def"; "a/b/c"; "."; ".."; "../.."; "../../abc"; "/abc";
     "/"; "."; "abc"; "abc/def"; "a/b/c"; "."; ".."; "../..";
     "/abc"; "abc/def/ghi"; "/abc"; "/abc"; "/abc"; "abc";
     "abc/def"; "/abc/def"; "abc"; "abc/def/jkl";
     "abc/jkl"; "abc"; ".";
     "/"; ".."; "/";
     "../../mno"; "/abc";
     "def"; "def"; "../../def"].
Proof. vm_compute. reflexivity. Qed.

Lemma filepath_Join_examples :
  filepath_Join "/var/sessions" "session_1" = "/var/sessions/session_1"
  ∧ filepath_Join "/path/to/sessions/" "session_1" = "/path/to/sessions/session_1"
  ∧ filepath_Join "link/../sessions" "session_1" = "sessions/session_1"
  ∧ filepath_Join "" "session_1" = "session_1"
  ∧ filepath_Join "/" "session_1" = "/session_1"
  ∧ filepath_Join "a" "" = "a"
  ∧ filepath_Join "" "" = "".
Proof. vm_compute. repeat split. Qed.

Lemma split_sep_nonempty s : split_sep s ≠ [].
Proof.
  destruct s as [|c s]; simpl; [done|]. destruct (is_sep c); [done|].
  by destruct (split_sep s).
Qed.

Lemma split_sep_app a b :
  split_sep (a +:+ String "/" b) = split_sep a ++ split_sep b.
Proof.
  induction a as [|c a IH]; simpl; [done|].
  destruct (is_sep c); [by rewrite IH|]. rewrite IH.
  pose proof (split_sep_nonempty a). by destruct (split_sep a).
Qed.

Lemma split_sep_no_sep n : no_sep n = true → split_sep n = [n].
Proof.
  induction n as [|c n IH]; simpl; [done|].
  intros [Hc Hn]%andb_true_iff. apply negb_true_iff in Hc. rewrite Hc.
  by rewrite IH.
Qed.

Lemma split_last_no_sep n : no_sep n = true → split_last n = (None, n).
Proof.
  induction n as [|c n IH]; simpl; [done|].
  intros [Hc Hn]%andb_true_iff. apply negb_true_iff in Hc. by rewrite IH, Hc.
Qed.

Lemma split_last_app x n :
  no_sep n = true → split_last (x +:+ String "/" n) = (Some x, n).
Proof.
  intros Hn. induction x as [|c x IH]; simpl.
  - by rewrite split_last_no_sep.
  - by rewrite IH.
Qed.

Lemma string_app_assoc (a b c : string) : (a +:+ b) +:+ c = a +:+ (b +:+ c).
Proof.
  induction a as [|x a IH]; [done|].
  change (String x ((a +:+ b) +:+ c) = String x (a +:+ (b +:+ c))).
  by rewrite IH.
Qed.

Lemma join_elements_snoc es e :
  join_elements (es ++ [e])
  = match es with [] => e | _ => join_elements es +:+ String "/" e end.
Proof.
  induction es as [|x es IH]; [done|].
  change ((x :: es) ++ [e]) with (x :: (es ++ [e])).
  cbn [join_elements]. rewrite IH.
  destruct es as [|y es]; [done|]. simpl app.
  cbn [join_elements]. by rewrite !string_app_assoc.
Qed.

(** An element that is a name is kept by Clean where it stands. *)
Lemma clean_elements_snoc r es e :
  e ≠ "" → e ≠ "." → e ≠ ".." →
  clean_elements r (es ++ [e]) = clean_elements r es ++ [e].
Proof.
  intros H1 H2 H3. unfold clean_elements. rewrite foldl_snoc.
  unfold clean_element at 1.
  destruct (decide (e = "" ∨ e = ".")) as [[?|?]|_]; [done..|].
  destruct (decide (e = "..")); [done|]. apply reverse_cons.
Qed.

Lemma clean_element_nonempty r st e :
  Forall (λ x, x ≠ "") st → Forall (λ x, x ≠ "") (clean_element r st e).
Proof.
  intros Hst. unfold clean_element.
  destruct (decide (e = "" ∨ e = ".")) as [|Hn]; [done|].
  destruct (decide (e = "..")) as [->|].
  - destruct st as [|top rest]; [destruct r; repeat constructor; done|].
    destruct (decide (top = "..")); [constructor; done|]. by inversion Hst.
  - constructor; [|done]. intros ->. apply Hn. by left.
Qed.

Lemma foldl_clean_nonempty r es : ∀ st,
  Forall (λ x, x ≠ "") st → Forall (λ x, x ≠ "") (foldl (clean_element r) st es).
Proof.
  induction es as [|e es IH]; intros st Hst; simpl; [done|].
  apply IH. by apply clean_element_nonempty.
Qed.

Lemma clean_elements_nonempty r es : Forall (λ x, x ≠ "") (clean_elements r es).
Proof.
  unfold clean_elements. apply Forall_reverse. by apply foldl_clean_nonempty.
Qed.

Lemma join_elements_nonempty es :
  es ≠ [] → Forall (λ x, x ≠ "") es → join_elements es ≠ "".
Proof.
  destruct es as [|e es]; [done|]. intros _ He. inversion He as [|? ? Hx _]; subst.
  cbn [join_elements]. destruct es; [done|]. destruct e; [done|]. done.
Qed.

Lemma rooted_app a b : a ≠ "" → rooted (a +:+ b) = rooted a.
Proof. by destruct a. Qed.

Lemma file_name_spec n :
  file_name n = true ↔ n ≠ "" ∧ n ≠ "." ∧ n ≠ ".." ∧ no_sep n = true.
Proof.
  unfold file_name. rewrite andb_true_iff, bool_decide_eq_true. tauto.
Qed.

Lemma filepath_Clean_file_name n : file_name n = true → filepath_Clean n = n.
Proof.
  intros (H1 & H2 & H3 & H4)%file_name_spec. unfold filepath_Clean.
  assert (rooted n = false) as ->.
  { destruct n as [|c n]; [done|]. simpl in *. by destruct (is_sep c). }
  rewrite split_sep_no_sep by done.
  change [n] with ([] ++ [n]). rewrite clean_elements_snoc by done. done.
Qed.

(** The path that Join makes of a directory and a file name is read by
    the kernel as the entry of that name in the directory that the
    cleaned path of the directory names. *)
Lemma parent_base_Join dir n :
  file_name n = true →
  parent_base (filepath_Join dir n) = (filepath_Clean dir, n).
Proof.
  intros Hn. pose proof Hn as (H1 & H2 & H3 & H4)%file_name_spec.
  unfold filepath_Join. destruct (decide (dir = "")) as [->|Hd].
  - rewrite decide_False by done. rewrite filepath_Clean_file_name by done.
    unfold parent_base. by rewrite split_last_no_sep.
  - unfold filepath_Clean.
    change (dir +:+ "/" +:+ n) with (dir +:+ String "/" n).
    rewrite rooted_app by done. cbn zeta.
    rewrite split_sep_app, (split_sep_no_sep n) by done.
    rewrite clean_elements_snoc by done.
    pose proof (clean_elements_nonempty (rooted dir) (split_sep dir)) as Hne.
    destruct (clean_elements (rooted dir) (split_sep dir)) as [|e es] eqn:E.
    + destruct (rooted dir); simpl; unfold parent_base; simpl.
      * by rewrite split_last_no_sep.
      * by rewrite split_last_no_sep.
    + rewrite join_elements_snoc.
      assert (join_elements (e :: es) ≠ "") as Hj
        by by apply join_elements_nonempty.
      destruct (rooted dir).
      * change ("/" +:+ (join_elements (e :: es) +:+ String "/" n))
          with (("/" +:+ join_elements (e :: es)) +:+ String "/" n).
        unfold parent_base. rewrite split_last_app by done.
        by rewrite decide_False.
      * cbn [app]. unfold parent_base. rewrite split_last_app by done.
        by rewrite decide_False.
Qed.

Lemma entry_of_Join dir n f :
  file_name n = true →
  entry_of (filepath_Join dir n) f
  = k ← resolve f (filepath_Clean dir); Some (k, n).
Proof.
  intros Hn. unfold entry_of. rewrite parent_base_Join by done. by rewrite Hn.
Qed.

(** Two file names of one directory have two paths. *)
Lemma filepath_Join_inj dir n n' :
  file_name n = true → file_name n' = true →
  filepath_Join dir n = filepath_Join dir n' → n = n'.
Proof.
  intros Hn Hn' H. apply (f_equal parent_base) in H.
  rewrite !parent_base_Join in H by done. congruence.
Qed.

(** ** The file system *)

Lemma lookup_fs (f : FileSystem) path n :
  f !! path = Some n ↔ ∃ k, resolve f path = Some k ∧ disk f !! k = Some n.
Proof.
  unfold lookup at 1, FileSystem_lookup.
  destruct (resolve f path) as [k|]; simpl.
  - split; [eauto|]. by intros (k' & [= <-] & ?).
  - split; [done|]. by intros (k' & ? & _).
Qed.

Lemma FileSystem_eq f f' : resolve f = resolve f' → disk f = disk f' → f = f'.
Proof. destruct f, f'; simpl. by intros -> ->. Qed.

Lemma DirNode_eq (d1 d2 : DirNode) :
  d_open d1 = d_open d2 → d_readdir d1 = d_readdir d2 →
  (∀ x, d_entries d1 !! x = d_entries d2 !! x) → d1 = d2.
Proof.
  destruct d1, d2; simpl. intros -> -> H. f_equal. by apply map_eq.
Qed.

Lemma after_remove_twice (o : option Inode) :
  (o ≫= after_remove) ≫= after_remove = o ≫= after_remove.
Proof.
  destruct o as [i|]; [|done]. unfold after_remove; simpl.
  destruct (i_unlink i) eqn:E; simpl; [by rewrite E|done].
Qed.

Lemma removed_resolve p f : resolve (removed p f) = resolve f.
Proof. unfold removed, unlink. by repeat case_match. Qed.

Lemma entry_of_resolve p f f' :
  resolve f' = resolve f → entry_of p f' = entry_of p f.
Proof. intros H. unfold entry_of. by rewrite H. Qed.

Lemma removed_disk_None p f k :
  disk f !! k = None → disk (removed p f) !! k = None.
Proof.
  intros H. unfold removed, unlink. repeat case_match; simpl; try done.
  rewrite lookup_alter. case_decide; [|done]. subst. by rewrite H.
Qed.

(** A removal touches one name of one directory: the entry is gone if it
    could be unlinked and is as it was otherwise. *)
Lemma removed_disk p f k n :
  disk f !! k = Some n →
  ∃ n', disk (removed p f) !! k = Some n'
        ∧ d_open n' = d_open n ∧ d_readdir n' = d_readdir n
        ∧ ∀ b, d_entries n' !! b
               = if decide (entry_of p f = Some (k, b))
                 then d_entries n !! b ≫= after_remove
                 else d_entries n !! b.
Proof.
  intros Hn. unfold removed, remove_error, unlink.
  destruct (entry_of p f) as [[k0 b0]|] eqn:E.
  2: { exists n; repeat split; try done; intros b; by case_decide. }
  destruct (disk f !! k0) as [n0|] eqn:Hn0.
  2: { exists n; repeat split; try done; intros b.
       case_decide; [|done]. simplify_eq. }
  destruct (d_entries n0 !! b0) as [i|] eqn:Hi.
  2: { exists n; repeat split; try done; intros b.
       case_decide; [|done]. simplify_eq. by rewrite Hi. }
  destruct (i_unlink i) eqn:Hu.
  { exists n; repeat split; try done; intros b.
    case_decide; [|done]. simplify_eq. rewrite Hi. simpl.
    unfold after_remove. by rewrite Hu. }
  simpl. destruct (decide (k = k0)) as [->|Hk].
  - simplify_eq. rewrite lookup_alter_eq, Hn. simpl. eexists.
    split; [done|]. split; [done|]. split; [done|]. simpl.
    intros b. case_decide as Hd.
    + simplify_eq. rewrite lookup_delete_eq, Hi. simpl.
      unfold after_remove. by rewrite Hu.
    + rewrite lookup_delete_ne; [done|]. congruence.
  - rewrite lookup_alter_ne by done. exists n; repeat split; try done.
    intros b. case_decide; [congruence|done].
Qed.

Lemma removed_all_resolve ps : ∀ f, resolve (removed_all ps f) = resolve f.
Proof.
  induction ps as [|p ps IH]; intros f; [done|].
  change (removed_all (p :: ps) f) with (removed_all ps (removed p f)).
  by rewrite IH, removed_resolve.
Qed.

Lemma removed_all_disk_None ps k : ∀ f,
  disk f !! k = None → disk (removed_all ps f) !! k = None.
Proof.
  induction ps as [|p ps IH]; intros f H; [done|].
  change (removed_all (p :: ps) f) with (removed_all ps (removed p f)).
  by apply IH, removed_disk_None.
Qed.

(** After a series of removals, a name of a directory is as it was
    unless one of the paths named it. *)
Lemma removed_all_disk f0 ps k : ∀ f n,
  resolve f = resolve f0 →
  disk f !! k = Some n →
  ∃ n', disk (removed_all ps f) !! k = Some n'
        ∧ d_open n' = d_open n ∧ d_readdir n' = d_readdir n
        ∧ ∀ b, d_entries n' !! b
               = if existsb (λ p, bool_decide (entry_of p f0 = Some (k, b))) ps
                 then d_entries n !! b ≫= after_remove
                 else d_entries n !! b.
Proof.
  induction ps as [|p ps IH]; intros f n Hr Hn.
  - by exists n.
  - change (removed_all (p :: ps) f) with (removed_all ps (removed p f)).
    destruct (removed_disk p f k n Hn) as (n1 & H1 & Ho1 & Hr1 & He1).
    rewrite (entry_of_resolve p f0 f Hr) in He1.
    destruct (IH (removed p f) n1) as (n2 & H2 & Ho2 & Hr2 & He2);
      [by rewrite removed_resolve|done|].
    exists n2. split; [done|]. split; [congruence|]. split; [congruence|].
    intros b. rewrite He2, He1. cbn [existsb].
    destruct (existsb _ ps); case_bool_decide; case_decide; try done; simpl.
    by rewrite after_remove_twice.
Qed.

Lemma removed_all_lookup ps f path n :
  f !! path = Some n →
  ∃ k n', resolve f path = Some k
        ∧ removed_all ps f !! path = Some n'
        ∧ d_open n' = d_open n ∧ d_readdir n' = d_readdir n
        ∧ ∀ b, d_entries n' !! b
               = if existsb (λ p, bool_decide (entry_of p f = Some (k, b))) ps
                 then d_entries n !! b ≫= after_remove
                 else d_entries n !! b.
Proof.
  intros (k & Hk & Hn)%lookup_fs.
  destruct (removed_all_disk f ps k f n eq_refl Hn) as (n' & Hn' & Ho & Hr & He).
  exists k, n'. split; [done|]. split; [|done].
  apply lookup_fs. exists k. by rewrite removed_all_resolve.
Qed.

Lemma removed_all_lookup_None ps f path :
  f !! path = None → removed_all ps f !! path = None.
Proof.
  unfold lookup, FileSystem_lookup. rewrite removed_all_resolve.
  destruct (resolve f path) as [k|]; simpl; [|done].
  apply removed_all_disk_None.
Qed.

Lemma remove_error_None p f :
  remove_error p f = None ↔
  ∃ k b n i, entry_of p f = Some (k, b) ∧ disk f !! k = Some n
             ∧ d_entries n !! b = Some i ∧ i_unlink i = None.
Proof.
  unfold remove_error. split.
  - destruct (entry_of p f) as [[k b]|]; [|done].
    destruct (disk f !! k) as [n|] eqn:Hn; [|done].
    destruct (d_entries n !! b) as [i|] eqn:Hi; [|done].
    intros Hu. by exists k, b, n, i.
  - intros (k & b & n & i & -> & -> & -> & Hu). done.
Qed.

(** A removal that fails changes nothing. *)
Lemma removed_dead p f : is_Some (remove_error p f) → removed p f = f.
Proof. intros [e He]. unfold removed. by rewrite He. Qed.

Lemma removed_all_dead ps f :
  (∀ p, p ∈ ps → is_Some (remove_error p f)) → removed_all ps f = f.
Proof.
  induction ps as [|p ps IH]; intros H; [done|].
  change (removed_all (p :: ps) f) with (removed_all ps (removed p f)).
  rewrite removed_dead by (apply H; left). apply IH. intros q Hq. apply H. by right.
Qed.

(** What a series of removals could not remove, no further removal can:
    a path that was among them, or whose removal failed before, fails
    afterwards. *)
Lemma dead_removed_all p ps f :
  p ∈ ps ∨ is_Some (remove_error p f) →
  is_Some (remove_error p (removed_all ps f)).
Proof.
  intros Hp. destruct (remove_error p (removed_all ps f)) as [e|] eqn:E; [eauto|].
  exfalso. apply remove_error_None in E as (k & b & n' & i & He & Hn' & Hi & Hu).
  rewrite (entry_of_resolve p f) in He by apply removed_all_resolve.
  destruct (disk f !! k) as [n|] eqn:Hn.
  2: { by rewrite (removed_all_disk_None ps k f Hn) in Hn'. }
  destruct (removed_all_disk f ps k f n eq_refl Hn) as (n2 & Hn2 & _ & _ & Hent).
  simplify_eq. specialize (Hent b). rewrite Hi in Hent.
  destruct (existsb _ ps) eqn:Hex.
  - destruct (d_entries n !! b) as [i0|]; [|done]. simpl in Hent.
    unfold after_remove in Hent. destruct (i_unlink i0) eqn:Hu0; [|done].
    by simplify_eq.
  - destruct Hp as [Hin|[e Herr]].
    + assert (existsb (λ q, bool_decide (entry_of q f = Some (k, b))) ps = true)
        as Hex'.
      { apply existsb_exists. exists p. split; [by apply list_elem_of_In|].
        by apply bool_decide_eq_true. }
      congruence.
    + assert (remove_error p f = None) as Hnone
        by (apply remove_error_None; by exists k, b, n, i).
      congruence.
Qed.

(** ** The loop of Collect *)

Lemma eligible_spec now age fi :
  eligible now age fi = true ↔
  IsDir fi = false ∧ strings_HasPrefix (Name fi) "session_" = true
  ∧ age < time_Sub now (ModTime fi).
Proof.
  unfold eligible. rewrite !andb_true_iff, negb_true_iff, Z.ltb_lt. tauto.
Qed.

Lemma os_Remove_returns p w : ∃ e, (os_Remove p w).1 = Returned e.
Proof. unfold os_Remove. case_match; eauto. Qed.

Lemma Collect_entry_sweep now fi s :
  Collect_entry now fi s
  = (Returned tt,
     with_world (λ w, if eligible now (maxAge (gc s)) fi
                      then (os_Remove (filepath_Join (dir (gc s)) (Name fi)) w).2
                      else w) s).
Proof.
  unfold Collect_entry, eligible, with_world.
  destruct (IsDir fi); simpl; [destruct s; reflexivity|].
  destruct (strings_HasPrefix (Name fi) "session_"); simpl;
    [|destruct s; reflexivity].
  unfold bind, gets, sys, ret; simpl.
  destruct (maxAge (gc s) <? time_Sub now (ModTime fi));
    [|destruct s; reflexivity].
  destruct (os_Remove_returns (filepath_Join (dir (gc s)) (Name fi)) (world s))
    as [e He].
  destruct (os_Remove _ _) as [r w]. simpl in He. subst r. reflexivity.
Qed.

Lemma for_range_sweep now l : ∀ s,
  for_range l (Collect_entry now) s
  = (Returned tt, with_world (sweep now (maxAge (gc s)) (dir (gc s)) l) s).
Proof.
  induction l as [|fi l IH]; intros s; simpl.
  - destruct s; reflexivity.
  - unfold bind. rewrite Collect_entry_sweep, IH. reflexivity.
Qed.

Lemma os_Remove_trace p w :
  trace (os_Remove p w).2 = trace w ++ [SysRemove p].
Proof. unfold os_Remove. by case_match. Qed.

Lemma os_Remove_clock p w : clock (os_Remove p w).2 = clock w.
Proof. unfold os_Remove. by case_match. Qed.

Lemma os_Remove_open_files p w : open_files (os_Remove p w).2 = open_files w.
Proof. unfold os_Remove. by case_match. Qed.

Lemma os_Remove_fs p w : fs (os_Remove p w).2 = removed p (fs w).
Proof. unfold os_Remove, removed. simpl. by case_match. Qed.

Lemma sweep_trace now age d l : ∀ w,
  trace (sweep now age d l w)
  = trace w ++ ((λ fi, SysRemove (filepath_Join d (Name fi)))
                  <$> filter (λ fi, eligible now age fi) l).
Proof.
  induction l as [|fi l IH]; intros w; simpl.
  - by rewrite app_nil_r.
  - rewrite IH. destruct (eligible now age fi) eqn:E.
    + rewrite filter_cons_True by by rewrite E.
      rewrite os_Remove_trace. simpl. by rewrite <- app_assoc.
    + rewrite filter_cons_False; [done|]. rewrite E. intros [].
Qed.

Lemma sweep_clock now age d l : ∀ w, clock (sweep now age d l w) = clock w.
Proof.
  induction l as [|fi l IH]; intros w; simpl; [done|].
  rewrite IH. case_match; [apply os_Remove_clock|done].
Qed.

Lemma sweep_open_files now age d l : ∀ w,
  open_files (sweep now age d l w) = open_files w.
Proof.
  induction l as [|fi l IH]; intros w; simpl; [done|].
  rewrite IH. case_match; [apply os_Remove_open_files|done].
Qed.

(** The loop does to the file system what the removals of its paths do,
    one after the other. *)
Lemma sweep_fs now age d l : ∀ w,
  fs (sweep now age d l w)
  = removed_all ((λ fi, filepath_Join d (Name fi))
                   <$> filter (λ fi, eligible now age fi) l) (fs w).
Proof.
  induction l as [|fi l IH]; intros w; simpl; [done|].
  rewrite IH. destruct (eligible now age fi) eqn:E.
  - rewrite filter_cons_True by by rewrite E.
    by rewrite os_Remove_fs.
  - rewrite filter_cons_False; [done|]. rewrite E. intros [].
Qed.

(** ** Collect, case by case *)

Lemma unlocked_set_mu g : mu g = false → set_mu false (set_mu true g) = g.
Proof. destruct g; simpl; intros ->; reflexivity. Qed.

(** A caller that finds the mutex held waits, and nothing changes. *)
Lemma Collect_blocked s : mu (gc s) = true → Collect s = (Blocked, s).
Proof. intros H. unfold Collect, bind, Lock. by rewrite H. Qed.

(** The directory can be opened and listed: the sweep runs. *)
Lemma Collect_listed s d :
  mu (gc s) = false →
  fs (world s) !! dir (gc s) = Some d → d_open d = None → d_readdir d = None →
  Collect s = (Returned None, with_world (Collect_world (gc s) d) s).
Proof.
  intros Hmu Hd Ho Hr.
  unfold Collect, Collect_world. unfold bind at 1. unfold Lock. rewrite Hmu.
  unfold defer at 1. unfold bind at 1. unfold gets at 1.
  unfold bind at 1. unfold sys at 1. unfold os_Open at 1. simpl. rewrite Hd, Ho.
  unfold defer at 1. unfold bind at 1. unfold sys at 1, Readdir at 1. simpl.
  rewrite Hd, Hr.
  unfold bind at 1. unfold sys at 1, time_Now at 1. simpl.
  unfold bind at 1. rewrite for_range_sweep. simpl.
  unfold with_world, with_gc, os_Open, listing; simpl. rewrite Hd, Ho; simpl.
  rewrite (unlocked_set_mu _ Hmu). reflexivity.
Qed.

(** The directory cannot be opened, or cannot be listed: the error is
    returned, and the world differs by the log of the calls made, none
    of them a removal (and a file that was opened is closed again). *)
Lemma Collect_failed s e :
  mu (gc s) = false → dir_error s = Some e →
  ∃ w' calls, Collect s = (Returned (Some e), with_world (λ _, w') s)
        ∧ fs w' = fs (world s) ∧ clock w' = clock (world s)
        ∧ open_files w' = open_files (world s)
        ∧ trace w' = trace (world s) ++ calls ∧ removals calls = []
        ∧ sweeps calls = 1%nat.
Proof.
  intros Hmu He. unfold dir_error in He.
  unfold Collect. unfold bind at 1. unfold Lock. rewrite Hmu.
  unfold defer at 1. unfold bind at 1. unfold gets at 1.
  unfold bind at 1. unfold sys at 1. unfold os_Open at 1. simpl.
  destruct (fs (world s) !! dir (gc s)) as [d|] eqn:Hd.
  - destruct (d_open d) as [e'|] eqn:Ho.
    + simplify_eq. simpl. eexists _, _. split.
      * unfold with_gc, with_world; simpl.
        rewrite (unlocked_set_mu _ Hmu). reflexivity.
      * simpl. repeat split; done.
    + unfold defer at 1. unfold bind at 1. unfold sys at 1, Readdir at 1. simpl.
      rewrite Hd, He. simpl. eexists _, [_; _; _]. split.
      * unfold with_gc, with_world; simpl.
        rewrite (unlocked_set_mu _ Hmu). reflexivity.
      * simpl. split; [done|]. split; [done|]. split; [by case_decide|].
        split; [by rewrite <- !app_assoc|done].
  - simplify_eq. simpl. eexists _, _. split.
    + unfold with_gc, with_world; simpl.
      rewrite (unlocked_set_mu _ Hmu). reflexivity.
    + simpl. repeat split; done.
Qed.

Lemma dir_error_None s :
  dir_error s = None →
  ∃ d, fs (world s) !! dir (gc s) = Some d ∧ d_open d = None ∧ d_readdir d = None.
Proof.
  unfold dir_error. destruct (fs (world s) !! dir (gc s)) as [d|]; [|done].
  destruct (d_open d) eqn:Ho; [done|]. eauto.
Qed.

Lemma dir_error_listed s d :
  fs (world s) !! dir (gc s) = Some d → d_open d = None → d_readdir d = None →
  dir_error s = None.
Proof. intros Hd Ho Hr. unfold dir_error. by rewrite Hd, Ho. Qed.

(** Whatever its outcome, Collect leaves the collector and the runtime
    alone. *)
Lemma Collect_frame s :
  gc (Collect s).2 = gc s
  ∧ tickers (Collect s).2 = tickers s
  ∧ goroutines (Collect s).2 = goroutines s.
Proof.
  destruct (mu (gc s)) eqn:Hmu.
  - by rewrite Collect_blocked.
  - destruct (dir_error s) as [e|] eqn:He.
    + destruct (Collect_failed s e Hmu He) as (w' & calls & -> & _). done.
    + destruct (dir_error_None s He) as (d & Hd & Ho & Hr).
      by rewrite (Collect_listed s d).
Qed.

(** With the mutex free, Collect returns. *)
Lemma Collect_returns s :
  mu (gc s) = false → ∃ r, Collect s = (Returned r, (Collect s).2).
Proof.
  intros Hmu. destruct (dir_error s) as [e|] eqn:He.
  - destruct (Collect_failed s e Hmu He) as (w' & calls & -> & _). eauto.
  - destruct (dir_error_None s He) as (d & Hd & Ho & Hr).
    rewrite (Collect_listed s d) by done. eauto.
Qed.

(** *** The world after a sweep *)

Lemma Collect_world_trace g d w :
  fs w !! dir g = Some d → d_open d = None →
  trace (Collect_world g d w)
  = trace w
    ++ [SysOpen (dir g); SysReaddir (dir g); SysNow]
    ++ ((λ fi, SysRemove (filepath_Join (dir g) (Name fi)))
          <$> filter (λ fi, eligible (clock w) (maxAge g) fi) (listing d))
    ++ [SysClose (dir g)].
Proof.
  intros Hd Ho. unfold Collect_world; simpl. rewrite sweep_trace.
  unfold os_Open; simpl. rewrite Hd, Ho; simpl.
  by rewrite <- !app_assoc.
Qed.

Lemma Collect_world_clock g d w : clock (Collect_world g d w) = clock w.
Proof.
  unfold Collect_world; simpl. rewrite sweep_clock. simpl.
  unfold os_Open; simpl. by repeat case_match.
Qed.

Lemma Collect_world_open_files g d w :
  fs w !! dir g = Some d → d_open d = None →
  open_files (Collect_world g d w) = open_files w.
Proof.
  intros Hd Ho. unfold Collect_world; simpl. rewrite sweep_open_files. simpl.
  unfold os_Open; simpl. rewrite Hd, Ho; simpl. by case_decide.
Qed.

Lemma os_Open_fs p w : fs (os_Open p w).2 = fs w.
Proof. unfold os_Open; simpl. by repeat case_match. Qed.

Lemma Collect_world_fs g d w :
  fs (Collect_world g d w)
  = removed_all ((λ fi, filepath_Join (dir g) (Name fi))
                   <$> filter (λ fi, eligible (clock w) (maxAge g) fi) (listing d))
      (fs w).
Proof.
  unfold Collect_world; simpl. rewrite sweep_fs. simpl. by rewrite os_Open_fs.
Qed.

(** The listing holds a name once, with the inode the directory has
    under it. *)
Lemma elem_of_listing d fi :
  fi ∈ listing d ↔
  ∃ i, d_entries d !! Name fi = Some i ∧ fi = file_info (Name fi, i).
Proof.
  unfold listing. rewrite list_elem_of_fmap. split.
  - intros ([n i] & -> & Hin). apply elem_of_map_to_list in Hin. eauto.
  - intros (i & Hi & Hfi). exists (Name fi, i). split; [done|].
    by apply elem_of_map_to_list.
Qed.

Lemma file_names_listing d fi :
  file_names d = true → fi ∈ listing d → file_name (Name fi) = true.
Proof.
  unfold file_names. rewrite forallb_forall. intros H Hin.
  by apply H, list_elem_of_In.
Qed.

Lemma file_names_entry d name i :
  file_names d = true → d_entries d !! name = Some i → file_name name = true.
Proof.
  intros H Hi. apply (file_names_listing d (file_info (name, i)) H).
  apply elem_of_listing. by exists i.
Qed.

Lemma removals_SysRemove (g : FileInfo → string) (l : list FileInfo) :
  removals ((λ fi, SysRemove (g fi)) <$> l) = g <$> l.
Proof.
  induction l as [|fi l IH]; [done|].
  rewrite !fmap_cons. change (removals (?c :: ?r)) with
    (match c with SysRemove p => p :: removals r | _ => removals r end).
  simpl. by rewrite IH.
Qed.

Lemma removals_app l1 l2 : removals (l1 ++ l2) = removals l1 ++ removals l2.
Proof. apply omap_app. Qed.

Lemma removals_sweep_calls d (g : FileInfo → string) (l : list FileInfo) :
  removals ([SysOpen d; SysReaddir d; SysNow]
            ++ ((λ fi, SysRemove (g fi)) <$> l) ++ [SysClose d])
  = g <$> l.
Proof.
  rewrite !removals_app, removals_SysRemove. simpl. by rewrite app_nil_r.
Qed.

Lemma sweeps_app l1 l2 : sweeps (l1 ++ l2) = (sweeps l1 + sweeps l2)%nat.
Proof. unfold sweeps. by rewrite filter_app, length_app. Qed.

Lemma sweeps_SysRemove (g : FileInfo → string) (l : list FileInfo) :
  sweeps ((λ fi, SysRemove (g fi)) <$> l) = 0%nat.
Proof. induction l as [|fi l IH]; [done|]. exact IH. Qed.

Lemma since_app (w w' : World) calls :
  trace w' = trace w ++ calls → since (length (trace w)) w' = calls.
Proof. intros H. unfold since. rewrite H. apply drop_app_length. Qed.

Lemma eligible_file_info now age name i :
  eligible now age (file_info (name, i)) = true ↔
  i_mode i ≠ ModeDir ∧ strings_HasPrefix name "session_" = true
  ∧ age < time_Sub now (i_mtime i).
Proof.
  rewrite eligible_spec. unfold IsDir, file_info; simpl.
  destruct (i_mode i); intuition congruence.
Qed.

Lemma elem_of_swept_listing now age d fi :
  fi ∈ filter (λ fi, eligible now age fi) (listing d) ↔
  ∃ i, d_entries d !! Name fi = Some i ∧ fi = file_info (Name fi, i)
       ∧ eligible now age (file_info (Name fi, i)) = true.
Proof.
  rewrite list_elem_of_filter, elem_of_listing. split.
  - intros (Hel & i & Hi & Hfi). exists i. split; [done|]. split; [done|].
    rewrite <- Hfi. by apply Is_true_true.
  - intros (i & Hi & Hfi & Hel). split; [|eauto].
    rewrite Hfi. by apply Is_true_true.
Qed.

(** In a directory of file names, the paths of a sweep name the swept
    entries, in the directory that the cleaned path names. *)
Lemma swept_entry f dir d now age k b :
  file_names d = true →
  existsb (λ p, bool_decide (entry_of p f = Some (k, b)))
    ((λ fi, filepath_Join dir (Name fi))
       <$> filter (λ fi, eligible now age fi) (listing d)) = true
  ↔ resolve f (filepath_Clean dir) = Some k
    ∧ ∃ i, d_entries d !! b = Some i
           ∧ eligible now age (file_info (b, i)) = true.
Proof.
  intros Hnames. rewrite existsb_exists. split.
  - intros (p & Hin & Hp). apply bool_decide_eq_true in Hp.
    apply list_elem_of_In, list_elem_of_fmap in Hin as (fi & -> & Hin).
    apply elem_of_swept_listing in Hin as (i & Hi & Hfi & Hel).
    rewrite entry_of_Join in Hp by by eapply file_names_entry.
    destruct (resolve f (filepath_Clean dir)) as [k'|]; [|done].
    simpl in Hp. simplify_eq. split; [done|]. eauto.
  - intros (Hk & i & Hi & Hel). exists (filepath_Join dir b). split.
    + apply list_elem_of_In, list_elem_of_fmap. exists (file_info (b, i)).
      split; [done|]. apply elem_of_swept_listing. exists i. by simpl.
    + apply bool_decide_eq_true. rewrite entry_of_Join by by eapply file_names_entry.
      by rewrite Hk.
Qed.

(** The sweep of a directory that can be opened and listed: the system
    calls it makes and the file system it leaves. *)
Lemma Collect_sweep s d :
  mu (gc s) = false →
  fs (world s) !! dir (gc s) = Some d → d_open d = None → d_readdir d = None →
  ∃ s' d' k,
    Collect s = (Returned None, s')
    ∧ since (length (trace (world s))) (world s')
      = [SysOpen (dir (gc s)); SysReaddir (dir (gc s)); SysNow]
        ++ ((λ fi, SysRemove (filepath_Join (dir (gc s)) (Name fi)))
              <$> filter (λ fi, eligible (clock (world s)) (maxAge (gc s)) fi)
                    (listing d))
        ++ [SysClose (dir (gc s))]
    ∧ removals (since (length (trace (world s))) (world s'))
      = (λ fi, filepath_Join (dir (gc s)) (Name fi))
          <$> filter (λ fi, eligible (clock (world s)) (maxAge (gc s)) fi)
                (listing d)
    ∧ fs (world s')
      = removed_all
          ((λ fi, filepath_Join (dir (gc s)) (Name fi))
             <$> filter (λ fi, eligible (clock (world s)) (maxAge (gc s)) fi)
                   (listing d))
          (fs (world s))
    ∧ resolve (fs (world s)) (dir (gc s)) = Some k
    ∧ fs (world s') !! dir (gc s) = Some d'
    ∧ d_open d' = None ∧ d_readdir d' = None
    ∧ ∀ b, d_entries d' !! b
           = if existsb
                  (λ p, bool_decide (entry_of p (fs (world s)) = Some (k, b)))
                  ((λ fi, filepath_Join (dir (gc s)) (Name fi))
                     <$> filter (λ fi, eligible (clock (world s)) (maxAge (gc s)) fi)
                           (listing d))
             then d_entries d !! b ≫= after_remove
             else d_entries d !! b.
Proof.
  intros Hmu Hd Ho Hr.
  pose proof (Collect_world_trace (gc s) d (world s) Hd Ho) as Htr.
  apply since_app in Htr.
  pose proof (Collect_world_fs (gc s) d (world s)) as Hfs.
  destruct (removed_all_lookup
              ((λ fi, filepath_Join (dir (gc s)) (Name fi))
                 <$> filter (λ fi, eligible (clock (world s)) (maxAge (gc s)) fi)
                       (listing d))
              (fs (world s)) (dir (gc s)) d Hd)
    as (k & d' & Hk & Hd' & Ho' & Hr' & He).
  exists (with_world (Collect_world (gc s) d) s), d', k.
  split; [by apply Collect_listed|]. split; [exact Htr|].
  split; [unfold with_world; cbn [world]; by rewrite Htr, removals_sweep_calls|].
  split; [exact Hfs|]. split; [exact Hk|].
  split; [unfold with_world; cbn [world]; by rewrite Hfs|].
  split; [congruence|]. split; [congruence|]. exact He.
Qed.

(** The same in a directory of file names: which removals are attempted,
    and what is left of the entries. *)
Lemma Collect_sweep_names s d :
  mu (gc s) = false →
  fs (world s) !! dir (gc s) = Some d → d_open d = None → d_readdir d = None →
  file_names d = true →
  ∃ s' d',
    Collect s = (Returned None, s')
    ∧ fs (world s') !! dir (gc s) = Some d'
    ∧ (∀ p, p ∈ removals (since (length (trace (world s))) (world s')) ↔
            ∃ name i, p = filepath_Join (dir (gc s)) name
                      ∧ d_entries d !! name = Some i
                      ∧ eligible (clock (world s)) (maxAge (gc s))
                          (file_info (name, i)) = true)
    ∧ (∀ name i,
         d_entries d !! name = Some i →
         (filepath_Join (dir (gc s)) name
            ∈ removals (since (length (trace (world s))) (world s')) ↔
          eligible (clock (world s)) (maxAge (gc s)) (file_info (name, i)) = true)
         ∧ (eligible (clock (world s)) (maxAge (gc s)) (file_info (name, i)) = false →
            d_entries d' !! name = Some i)
         ∧ (cleanable (fs (world s)) (dir (gc s)) →
            eligible (clock (world s)) (maxAge (gc s)) (file_info (name, i)) = true →
            d_entries d' !! name = after_remove i)).
Proof.
  intros Hmu Hd Ho Hr Hnames.
  destruct (Collect_sweep s d Hmu Hd Ho Hr)
    as (s' & d' & k & HC & _ & Hrm & _ & Hk & Hd' & _ & _ & He).
  exists s', d'. split; [done|]. split; [done|].
  assert (∀ p, p ∈ removals (since (length (trace (world s))) (world s')) ↔
               ∃ name i, p = filepath_Join (dir (gc s)) name
                         ∧ d_entries d !! name = Some i
                         ∧ eligible (clock (world s)) (maxAge (gc s))
                             (file_info (name, i)) = true) as Hin.
  { intros p. rewrite Hrm, list_elem_of_fmap. split.
    - intros (fi & -> & Hfi).
      apply elem_of_swept_listing in Hfi as (i & Hi & _ & Hel). eauto.
    - intros (name & i & -> & Hi & Hel). exists (file_info (name, i)).
      split; [done|]. apply elem_of_swept_listing. exists i. by simpl. }
  split; [exact Hin|].
  intros name i Hi. specialize (He name). rewrite Hi in He.
  pose proof (swept_entry (fs (world s)) (dir (gc s)) d (clock (world s))
                (maxAge (gc s)) k name Hnames) as Hex.
  split; [|split].
  - rewrite Hin. split.
    + intros (name' & i' & Hj & Hi' & Hel).
      apply filepath_Join_inj in Hj; [|by eapply file_names_entry..].
      by simplify_eq.
    + eauto.
  - intros Hel. rewrite He. destruct (existsb _ _); [|done].
    destruct Hex as [Hex _]. destruct (Hex eq_refl) as (_ & i' & ? & ?).
    simplify_eq. congruence.
  - intros Hclean Hel. rewrite He. destruct (existsb _ _); [done|].
    destruct Hex as [_ Hex]. exfalso.
    assert (false = true); [|done]. apply Hex. split; [|eauto].
    unfold cleanable in Hclean. by rewrite Hclean.
Qed.

(** The file system after Collect, whatever its result. *)
Lemma Collect_fs s :
  mu (gc s) = false →
  fs (world (Collect s).2)
  = removed_all (swept (maxAge (gc s)) s) (fs (world s)).
Proof.
  intros Hmu. unfold swept. destruct (dir_error s) as [e|] eqn:He.
  - destruct (Collect_failed s e Hmu He) as (w' & calls & -> & Hfs & _). done.
  - destruct (dir_error_None s He) as (d & Hd & Ho & Hr).
    destruct (Collect_sweep s d Hmu Hd Ho Hr) as (s' & d' & k & HC & _ & _ & Hfs & _).
    by rewrite HC, Hd.
Qed.

(** ** The sweep: what Collect deletes *)




(** C2.  Collect returns an error exactly when the directory cannot be
    opened or cannot be listed.  Once the listing is there the result is
    success whatever the removals run into, and a removal is tried on
    every swept entry of the listing, in its order: a removal that fails
    does not end the loop. *)
Theorem Collect_error_iff_directory_fails s :
  mu (gc s) = false →
  ∃ r s',
    Collect s = (Returned r, s')
    ∧ r = dir_error s
    ∧ (r = None ↔
       ∃ d, fs (world s) !! dir (gc s) = Some d
            ∧ d_open d = None ∧ d_readdir d = None)
    ∧ ∀ d, fs (world s) !! dir (gc s) = Some d →
           d_open d = None → d_readdir d = None →
           r = None
           ∧ removals (since (length (trace (world s))) (world s'))
             = (λ fi, filepath_Join (dir (gc s)) (Name fi))
                 <$> filter (λ fi, eligible (clock (world s)) (maxAge (gc s)) fi)
                       (listing d).
Proof.
  intros Hmu. destruct (dir_error s) as [e|] eqn:He.
  - destruct (Collect_failed s e Hmu He) as (w' & calls & HC & _).
    eexists _, _. split; [exact HC|]. split; [done|]. split.
    + split; [done|]. intros (d & Hd & Ho & Hr).
      by rewrite (dir_error_listed s d) in He.
    + intros d Hd Ho Hr. by rewrite (dir_error_listed s d) in He.
  - destruct (dir_error_None s He) as (d & Hd & Ho & Hr).
    destruct (Collect_sweep s d Hmu Hd Ho Hr) as (s' & d' & k & HC & _ & Hrm & _).
    exists None, s'. split; [done|]. split; [done|]. split.
    + split; [eauto|done].
    + intros d0 Hd0 _ _. by simplify_eq.
Qed.

Lemma Collect_error_iff_directory_fails_witness :
  (∃ s', Collect example_system = (Returned None, s'))
  ∧ (∃ s', Collect example_gone = (Returned (Some ENOENT), s')).
Proof.
  split.
  - destruct (Collect_error_iff_directory_fails example_system eq_refl)
      as (r & s' & HC & -> & _). by exists s'.
  - destruct (Collect_error_iff_directory_fails example_gone eq_refl)
      as (r & s' & HC & -> & _). by exists s'.
Defined.

(** C6.  If Collect returns an error, the directory could not be opened
    or listed, no removal was attempted during the call and the file
    system is as it was. *)
Theorem Collect_error_leaves_files s s' e :
  Collect s = (Returned (Some e), s') →
  dir_error s = Some e
  ∧ fs (world s') = fs (world s)
  ∧ removals (since (length (trace (world s))) (world s')) = [].
Proof.
  intros HC. destruct (mu (gc s)) eqn:Hmu.
  - by rewrite Collect_blocked in HC.
  - destruct (dir_error s) as [e'|] eqn:He.
    + destruct (Collect_failed s e' Hmu He)
        as (w' & calls & HC' & Hfs & _ & _ & Htr & Hrm & _).
      rewrite HC' in HC. simplify_eq. split; [done|]. split; [done|].
      unfold with_world; cbn [world]. by rewrite (since_app _ _ _ Htr).
    + destruct (dir_error_None s He) as (d & Hd & Ho & Hr).
      by rewrite (Collect_listed s d) in HC.
Qed.

Lemma Collect_error_leaves_files_witness :
  dir_error example_gone = Some ENOENT
  ∧ fs (world (Collect example_gone).2) = fs (world example_gone)
  ∧ removals (since (length (trace (world example_gone)))
                (world (Collect example_gone).2)) = [].
Proof.
  apply (Collect_error_leaves_files example_gone (Collect example_gone).2 ENOENT).
  vm_compute. reflexivity.
Defined.

(** C10.  Collect never modifies a field of the collector: whether it
    returns success or an error (or finds the mutex held), the directory,
    maxAge, the interval and the ticker are what they were, the mutex is
    back in the state it was found in, and no ticker or goroutine of the
    runtime has changed.  The effect of a sweep is on the world alone. *)
Theorem Collect_leaves_collector s :
  gc (Collect s).2 = gc s
  ∧ dir (gc (Collect s).2) = dir (gc s)
  ∧ maxAge (gc (Collect s).2) = maxAge (gc s)
  ∧ interval (gc (Collect s).2) = interval (gc s)
  ∧ ticker (gc (Collect s).2) = ticker (gc s)
  ∧ tickers (Collect s).2 = tickers s
  ∧ goroutines (Collect s).2 = goroutines s.
Proof.
  destruct (Collect_frame s) as (Hg & Ht & Hr).
  by rewrite Hg.
Qed.

(** C3, as the code has it.  The one kind of entry that Collect passes
    over for what it is, is a directory: in a directory that is listed
    under file names, as a kernel lists it, and whatever the name and
    age, no removal is attempted on a subdirectory of the target
    directory and it is left as it was, and the sweep opens and lists
    nothing but the target directory itself.  For any other entry (a regular file, a
    symbolic link, a pipe, ...) whose name starts with session_ and whose
    age exceeds maxAge, os.Remove is called on filepath.Join(dir, name);
    when the cleaned path of the directory names the target directory,
    the entry is gone afterwards unless the removal fails.  A removal is
    attempted on nothing else. *)
Theorem Collect_spares_directories s d :
  mu (gc s) = false →
  fs (world s) !! dir (gc s) = Some d → d_open d = None → d_readdir d = None →
  file_names d = true →
  ∃ s' d',
    Collect s = (Returned None, s')
    ∧ fs (world s') !! dir (gc s) = Some d'
    ∧ (∀ c, c ∈ since (length (trace (world s))) (world s') →
            match c with
            | SysOpen p | SysReaddir p | SysClose p => p = dir (gc s)
            | SysRemove p =>
                ∃ name i, p = filepath_Join (dir (gc s)) name
                          ∧ d_entries d !! name = Some i
                          ∧ i_mode i ≠ ModeDir
                          ∧ strings_HasPrefix name "session_" = true
                          ∧ maxAge (gc s) < time_Sub (clock (world s)) (i_mtime i)
            | SysNow => True
            end)
    ∧ ∀ name i,
        d_entries d !! name = Some i →
        (i_mode i = ModeDir →
         (filepath_Join (dir (gc s)) name
            ∉ removals (since (length (trace (world s))) (world s')))
         ∧ d_entries d' !! name = Some i)
        ∧ (i_mode i ≠ ModeDir →
           strings_HasPrefix name "session_" = true →
           maxAge (gc s) < time_Sub (clock (world s)) (i_mtime i) →
           filepath_Join (dir (gc s)) name
             ∈ removals (since (length (trace (world s))) (world s'))
           ∧ (cleanable (fs (world s)) (dir (gc s)) →
              d_entries d' !! name = after_remove i)).
Proof.
  intros Hmu Hd Ho Hr Hnames.
  destruct (Collect_sweep s d Hmu Hd Ho Hr) as (s' & d' & k & HC & Htr & _).
  destruct (Collect_sweep_names s d Hmu Hd Ho Hr Hnames)
    as (s1 & d1 & HC1 & Hd' & Hrm & He).
  assert (s1 = s') as -> by congruence.
  exists s', d1. split; [done|]. split; [done|]. split.
  - intros c. rewrite Htr, !elem_of_app, list_elem_of_fmap, !elem_of_cons.
    intros [[->|[->|[->|Hin]]]|[(fi & -> & Hfi)|[->|Hin]]]; try done;
      try by apply elem_of_nil in Hin.
    apply elem_of_swept_listing in Hfi as (i & Hi & _ & Hel).
    exists (Name fi), i. split; [done|]. split; [done|].
    by apply eligible_file_info.
  - intros name i Hi. destruct (He name i Hi) as (Hin & Hkeep & Hgone).
    pose proof (eligible_file_info (clock (world s)) (maxAge (gc s)) name i) as Hiff.
    assert (i_mode i = ModeDir →
            eligible (clock (world s)) (maxAge (gc s)) (file_info (name, i)) = false)
      as Hdir.
    { intros Hm. apply not_true_is_false. rewrite Hiff. by intros [? _]. }
    split.
    + intros Hm. split; [|by apply Hkeep, Hdir].
      rewrite Hin. by rewrite (Hdir Hm).
    + intros Hne Hpre Hage.
      assert (eligible (clock (world s)) (maxAge (gc s)) (file_info (name, i)) = true)
        as Hel by by apply Hiff.
      split; [by apply Hin|]. intros Hclean. by apply Hgone.
Qed.

Lemma Collect_spares_directories_witness :
  ∃ s' d', Collect example_system = (Returned None, s')
           ∧ fs (world s') !! "/var/sessions" = Some d'
           ∧ is_Some (d_entries d' !! "session_dir").
Proof.
  destruct (Collect_spares_directories example_system example_node)
    as (s' & d' & HC & Hd' & _ & He);
    [reflexivity|vm_compute; reflexivity|reflexivity|reflexivity
    |vm_compute; reflexivity|].
  exists s', d'. split; [exact HC|]. split; [exact Hd'|].
  destruct (He "session_dir"
              {| i_mode := ModeDir; i_mtime := example_now - 8 * day;
                 i_unlink := None |}) as [Hdir _]; [vm_compute; reflexivity|].
  destruct (Hdir eq_refl) as [_ Hl]. rewrite Hl. eexists. reflexivity.
Defined.

(** C3, as the claim has it, fails on a symbolic link: session_link is
    no regular file, it is nine days old, and the sweep removes it. *)
Lemma Collect_deletes_symlink :
  ∃ s' d' i,
    d_entries example_node !! "session_link" = Some i
    ∧ i_mode i = ModeSymlink
    ∧ IsRegular (file_info ("session_link", i)) = false
    ∧ Collect example_system = (Returned None, s')
    ∧ SysRemove "/var/sessions/session_link" ∈ trace (world s')
    ∧ fs (world s') !! "/var/sessions" = Some d'
    ∧ d_entries d' !! "session_link" = None.
Proof.
  exists (Collect example_system).2,
    {| d_open := None; d_readdir := None;
       d_entries := delete "session_link" (delete "session_1" example_entries) |},
    {| i_mode := ModeSymlink; i_mtime := example_now - 9 * day;
       i_unlink := None |}.
  split; [vm_compute; reflexivity|]. split; [reflexivity|].
  split; [reflexivity|]. split; [vm_compute; reflexivity|]. split.
  - apply list_elem_of_In. vm_compute. tauto.
  - split; vm_compute; reflexivity.
Qed.

(** ** The configuration and the lifecycle, call by call *)

(** Two states are compared field by field once the record of the
    collector is taken apart. *)
Ltac by_fields s := destruct s as [[] ? ? ?]; simpl in *; by subst.

Lemma MaxAge_unlocked dur s :
  mu (gc s) = false →
  MaxAge dur s = (Returned tt, with_gc (set_maxAge dur) s).
Proof.
  intros Hmu. unfold MaxAge, bind, Lock, defer, Unlock, modify. rewrite Hmu.
  simpl. unfold with_gc; simpl. by_fields s.
Qed.

Lemma Interval_unlocked dur s :
  mu (gc s) = false →
  Interval dur s = (Returned tt, with_gc (set_interval dur) s).
Proof.
  intros Hmu. unfold Interval, bind, Lock, defer, Unlock, modify. rewrite Hmu.
  simpl. unfold with_gc; simpl. by_fields s.
Qed.

Lemma held_call {A} (body : Exec System A) s :
  mu (gc s) = true → (Lock ;; defer Unlock body) s = (Blocked, s).
Proof. intros H. unfold bind, Lock. by rewrite H. Qed.

(** Start on a collector that runs: nothing happens. *)
Lemma Start_running s t :
  mu (gc s) = false → ticker (gc s) = Some t → Start s = (Returned tt, s).
Proof.
  intros Hmu Ht. unfold Start, bind, Lock, defer, Unlock, gets. rewrite Hmu.
  simpl. rewrite Ht. simpl. unfold with_gc; simpl.
  by_fields s.
Qed.

(** Start on a stopped collector: a ticker and a goroutine are made. *)
Lemma Start_stopped s :
  mu (gc s) = false → ticker (gc s) = None → 0 < interval (gc s) →
  Start s = (Returned tt, started s).
Proof.
  intros Hmu Ht Hi. unfold Start, bind, Lock, defer, Unlock, gets. rewrite Hmu.
  simpl. rewrite Ht. unfold time_NewTicker; simpl.
  destruct (interval (gc s) <=? 0) eqn:E; [lia|].
  unfold modify, go_loop, started, new_ticker, with_gc, with_goroutines, with_tickers;
    simpl.
  by_fields s.
Qed.

(** Start with an interval that is not positive: NewTicker panics, the
    deferred Unlock runs, and nothing has changed. *)
Lemma Start_panics s :
  mu (gc s) = false → ticker (gc s) = None → interval (gc s) <= 0 →
  Start s = (Panicked "non-positive interval for NewTicker", s).
Proof.
  intros Hmu Ht Hi. unfold Start, bind, Lock, defer, Unlock, gets. rewrite Hmu.
  simpl. rewrite Ht. unfold time_NewTicker; simpl.
  destruct (interval (gc s) <=? 0) eqn:E; [|lia].
  simpl. unfold with_gc; simpl.
  by_fields s.
Qed.

(** Stop on a stopped collector: nothing happens. *)
Lemma Stop_stopped s :
  mu (gc s) = false → ticker (gc s) = None → Stop s = (Returned tt, s).
Proof.
  intros Hmu Ht. unfold Stop, bind, Lock, defer, Unlock, gets. rewrite Hmu.
  simpl. rewrite Ht. simpl. unfold with_gc; simpl.
  by_fields s.
Qed.

(** Stop on a collector that runs: the ticker is stopped and forgotten. *)
Lemma Stop_running s t :
  mu (gc s) = false → ticker (gc s) = Some t →
  Stop s = (Returned tt, halted t s).
Proof.
  intros Hmu Ht. unfold Stop, bind, Lock, defer, Unlock, gets. rewrite Hmu.
  simpl. rewrite Ht. simpl.
  unfold halted, Ticker_Stop, modify, with_gc, with_tickers; simpl.
  by_fields s.
Qed.

(** ** The steps of the program *)

(** What a step that leaves the program alive has done. *)
Lemma step_alive l s s' :
  mu (gc s) = false → step l s = Some (Alive s') →
  match l with
  | CallMaxAge d => s' = with_gc (set_maxAge d) s
  | CallInterval d => s' = with_gc (set_interval d) s
  | CallStart =>
      (∃ t, ticker (gc s) = Some t ∧ s' = s)
      ∨ (ticker (gc s) = None ∧ 0 < interval (gc s) ∧ s' = started s)
  | CallStop =>
      (ticker (gc s) = None ∧ s' = s)
      ∨ (∃ t, ticker (gc s) = Some t ∧ s' = halted t s)
  | CallCollect => s' = (Collect s).2
  | Advance d => 0 <= d ∧ s' = advance d s
  | Fire t =>
      ∃ k, tickers s !! t = Some k ∧ active k = true
           ∧ next_tick k <= clock (world s)
           ∧ s' = with_tickers (λ ts, <[t := ticked k]> ts) s
  | Run i =>
      (goroutines s !! i = Some GoSpawned
       ∧ ∃ t, ticker (gc s) = Some t
              ∧ s' = with_goroutines (λ gs, <[i := GoReceive t]> gs) s)
      ∨ (∃ t k, goroutines s !! i = Some (GoReceive t)
                ∧ tickers s !! t = Some k ∧ pending k = true
                ∧ s' = with_goroutines (λ gs, <[i := GoBody t]> gs)
                         (with_tickers (λ ts, <[t := received k]> ts) s))
      ∨ (∃ t k, goroutines s !! i = Some (GoReceive t)
                ∧ tickers s !! t = Some k ∧ pending k = false
                ∧ closed k = true
                ∧ s' = with_goroutines (λ gs, <[i := GoDone]> gs) s)
      ∨ (∃ t, goroutines s !! i = Some (GoBody t)
              ∧ s' = with_goroutines (λ gs, <[i := GoReceive t]> gs)
                       (Collect s).2)
  end.
Proof.
  intros Hmu Hs. destruct l as [d|d| | | |d|t|i]; simpl in Hs.
  - rewrite MaxAge_unlocked in Hs by done. by simplify_eq/=.
  - rewrite Interval_unlocked in Hs by done. by simplify_eq/=.
  - destruct (ticker (gc s)) as [t|] eqn:Ht.
    + rewrite (Start_running s t) in Hs by done. simplify_eq/=. eauto.
    + destruct (decide (0 < interval (gc s))).
      * rewrite Start_stopped in Hs by done. simplify_eq/=. eauto.
      * rewrite Start_panics in Hs by (done || lia). by simplify_eq/=.
  - destruct (ticker (gc s)) as [t|] eqn:Ht.
    + rewrite (Stop_running s t) in Hs by done. simplify_eq/=. eauto.
    + rewrite Stop_stopped in Hs by done. simplify_eq/=. eauto.
  - destruct (Collect_returns s Hmu) as [r Hr]. rewrite Hr in Hs.
    by simplify_eq/=.
  - destruct (0 <=? d) eqn:E; [|done]. simplify_eq/=. split; [lia|done].
  - destruct (tickers s !! t) as [k|] eqn:Hk; [|done].
    destruct (active k) eqn:Ha; [|done].
    destruct (next_tick k <=? clock (world s)) eqn:E; [|done].
    simplify_eq/=. exists k. repeat split; try done. lia.
  - destruct (goroutines s !! i) as [[|t|t|]|] eqn:Hg; try done.
    + destruct (ticker (gc s)) as [t|] eqn:Ht; [|done].
      simplify_eq/=. left. eauto.
    + destruct (tickers s !! t) as [k|] eqn:Hk; [|done].
      destruct (pending k) eqn:Hp.
      * simplify_eq/=. right; left. eauto 10.
      * destruct (closed k) eqn:Hc; [|done].
        simplify_eq/=. right; right; left. eauto 10.
    + destruct (Collect_returns s Hmu) as [r Hr]. rewrite Hr in Hs.
      simplify_eq/=. right; right; right. eauto.
Qed.

Lemma run_app ls1 ls2 p :
  run (ls1 ++ ls2) p = run ls1 p ≫= run ls2.
Proof.
  revert p. induction ls1 as [|l ls1 IH]; intros p; simpl; [done|].
  destruct p as [s|]; [|done]. destruct (step l s); [apply IH|done].
Qed.

(** A property of states that every step keeps holds all along a run. *)
Lemma run_invariant (P : System → Prop) :
  (∀ l s s', P s → step l s = Some (Alive s') → P s') →
  ∀ ls s s', P s → run ls (Alive s) = Some (Alive s') → P s'.
Proof.
  intros Hstep ls. induction ls as [|l ls IH]; intros s s' HP Hrun; simpl in Hrun.
  - by simplify_eq.
  - destruct (step l s) as [[s1|]|] eqn:Hs; [|by destruct ls|done].
    eapply IH; [|done]. eauto.
Qed.

(** ** Invariants of the lifecycle *)

(** Between two steps the mutex is free, and only the setters change the
    configuration. *)
Lemma gc_step l s s' :
  mu (gc s) = false → step l s = Some (Alive s') →
  mu (gc s') = false
  ∧ dir (gc s') = dir (gc s)
  ∧ (is_CallMaxAge l = false → maxAge (gc s') = maxAge (gc s))
  ∧ ((∀ d, l ≠ CallInterval d) → interval (gc s') = interval (gc s)).
Proof.
  intros Hmu Hs. apply step_alive in Hs; [|done].
  destruct l as [d|d| | | |d|t|i]; simpl.
  - by subst s'.
  - subst s'. simpl. repeat split; try done. intros H. by destruct (H d).
  - by destruct Hs as [(t & Ht & ->)|(Ht & Hi & ->)].
  - by destruct Hs as [(Ht & ->)|(t & Ht & ->)].
  - subst s'. destruct (Collect_frame s) as (-> & _). done.
  - by destruct Hs as [_ ->].
  - by destruct Hs as (k & Hk & Ha & _ & ->).
  - destruct Hs as [(Hg' & t' & Ht & ->)|[(t' & k' & Hg' & Hk' & Hp' & ->)
      |[(t' & k' & Hg' & Hk' & Hp' & Hc' & ->)|(t' & Hg' & ->)]]]; simpl;
      try done.
    destruct (Collect_frame s) as (-> & _). done.
Qed.

Lemma unlocked_run ls s s' :
  mu (gc s) = false → run ls (Alive s) = Some (Alive s') → mu (gc s') = false.
Proof.
  apply (run_invariant (λ s, mu (gc s) = false)).
  intros l s1 s2 H1 Hs. by destruct (gc_step l s1 s2 H1 Hs).
Qed.

Lemma boot_consistent g w :
  mu g = false → ticker g = None → consistent (boot g w).
Proof. intros Hmu Ht. split; simpl; try done. by rewrite Ht. Qed.

Lemma consistent_step l s s' :
  consistent s → step l s = Some (Alive s') → consistent s'.
Proof.
  intros [Hmu Hopen Hact Hhan Hloop] Hs.
  apply step_alive in Hs; [|done].
  destruct l as [d|d| | | |d|t|i].
  - subst s'. by split.
  - subst s'. by split.
  - destruct Hs as [(t & Ht & ->)|(Ht & Hi & ->)]; [by split|].
    split; simpl; try done.
    + intros t k [[_ Hk]|[_ <-]]%lookup_snoc_Some; [eauto|done].
    + intros t k [[_ Hk]|[-> <-]]%lookup_snoc_Some Ha; [|done].
      specialize (Hact t k Hk Ha). congruence.
    + intros t [= <-]. exists (new_ticker s). split; [|done].
      apply lookup_snoc_Some. auto.
    + intros i [[_ Hi']|[_ ?]]%lookup_snoc_Some; [by eapply Hloop|done].
  - destruct Hs as [(Ht & ->)|(t & Ht & ->)]; [by split|].
    split; simpl; try done.
    + intros t' k. rewrite list_lookup_alter. case_decide.
      * subst t'. destruct (tickers s !! t) as [k0|] eqn:Hk0; [|done].
        intros [= <-]. simpl. eauto.
      * eauto.
    + intros t' k. rewrite list_lookup_alter. case_decide.
      * subst t'. destruct (tickers s !! t) as [k0|]; [|done]. by intros [= <-].
      * intros Hk Ha. specialize (Hact t' k Hk Ha). congruence.
  - subst s'. destruct (Collect_frame s) as (Hg & Ht & Hr).
    split; rewrite ?Hg, ?Ht, ?Hr; done.
  - destruct Hs as [_ ->]. by split.
  - destruct Hs as (k & Hk & Ha & _ & ->). split; simpl; try done.
    + intros t' k'. rewrite list_lookup_insert. case_decide.
      * intros [= <-]. simpl. eauto.
      * eauto.
    + intros t' k'. rewrite list_lookup_insert. case_decide as Hd.
      * destruct Hd as [<- _]. intros [= <-] _. eauto.
      * eauto.
    + intros t' Ht'. destruct (Hhan t' Ht') as (k' & Hk' & Ha').
      destruct (decide (t = t')) as [<-|Hne].
      * simplify_eq. exists (ticked k). split; [|done].
        apply list_lookup_insert_eq. by eapply lookup_lt_Some.
      * exists k'. by rewrite list_lookup_insert_ne.
  - destruct Hs as [(Hg & t & Ht & ->)|[(t & k & Hg & Hk & Hp & ->)
      |[(t & k & Hg & Hk & Hp & Hc & ->)|(t & Hg & ->)]]].
    + split; simpl; try done.
      intros j. rewrite list_lookup_insert. case_decide; [done|apply Hloop].
    + split; simpl; try done.
      * intros t' k'. rewrite list_lookup_insert. case_decide.
        -- intros [= <-]. simpl. eauto.
        -- eauto.
      * intros t' k'. rewrite list_lookup_insert. case_decide as Hd.
        -- destruct Hd as [<- _]. intros [= <-] Ha. eauto.
        -- eauto.
      * intros t' Ht'. destruct (Hhan t' Ht') as (k' & Hk' & Ha').
        destruct (decide (t = t')) as [<-|Hne].
        -- simplify_eq. exists (received k). split; [|done].
           apply list_lookup_insert_eq. by eapply lookup_lt_Some.
        -- exists k'. by rewrite list_lookup_insert_ne.
      * intros j. rewrite list_lookup_insert. case_decide; [done|apply Hloop].
    + specialize (Hopen t k Hk). congruence.
    + destruct (Collect_frame s) as (Hgc & Ht & Hr).
      split; simpl; rewrite ?Hgc, ?Ht, ?Hr; try done.
      intros j. rewrite list_lookup_insert. case_decide; [done|apply Hloop].
Qed.

Lemma consistent_run ls s s' :
  consistent s → run ls (Alive s) = Some (Alive s') → consistent s'.
Proof. apply (run_invariant consistent). intros; by eapply consistent_step. Qed.

(** The tickers that tick are at most one. *)
Lemma consistent_one_active s t1 t2 k1 k2 :
  consistent s →
  tickers s !! t1 = Some k1 → active k1 = true →
  tickers s !! t2 = Some k2 → active k2 = true →
  t1 = t2.
Proof.
  intros Hc H1 Ha1 H2 Ha2.
  pose proof (cs_active s Hc t1 k1 H1 Ha1).
  pose proof (cs_active s Hc t2 k2 H2 Ha2). congruence.
Qed.

(** A goroutine that waits on a stopped ticker waits for ever: no step
    of the program, its own included, moves it. *)
Lemma stuck_no_step j t s : stuck j t s → step (Run j) s = None.
Proof.
  intros (Hg & k & Hk & _ & Hp & Hc). simpl. by rewrite Hg, Hk, Hp, Hc.
Qed.

Lemma stuck_step j t l s s' :
  mu (gc s) = false → stuck j t s → step l s = Some (Alive s') → stuck j t s'.
Proof.
  intros Hmu Hst Hs. pose proof (stuck_no_step j t s Hst) as Hno.
  destruct Hst as (Hg & k & Hk & Ha & Hp & Hc).
  apply step_alive in Hs as Hs'; [|done].
  destruct l as [d|d| | | |d|t'|i].
  - subst s'. split; [done|]. by exists k.
  - subst s'. split; [done|]. by exists k.
  - destruct Hs' as [(t' & Ht & ->)|(Ht & Hi & ->)].
    + split; [done|]. by exists k.
    + split; simpl; [by apply lookup_app_l_Some|].
      exists k. split; [by apply lookup_app_l_Some|done].
  - destruct Hs' as [(Ht & ->)|(t' & Ht & ->)].
    + split; [done|]. by exists k.
    + split; [done|]. simpl. rewrite list_lookup_alter. case_decide.
      * subst t'. rewrite Hk. simpl. by exists (stopped k).
      * by exists k.
  - subst s'. destruct (Collect_frame s) as (_ & Ht & Hr).
    split; [by rewrite Hr|]. exists k. by rewrite Ht.
  - destruct Hs' as [_ ->]. split; [done|]. by exists k.
  - destruct Hs' as (k' & Hk' & Ha' & _ & ->). split; [done|]. simpl.
    exists k. split; [|done]. rewrite list_lookup_insert_ne; [done|].
    intros ->. congruence.
  - assert (i ≠ j) as Hij by (intros ->; congruence).
    destruct Hs' as [(Hg' & t' & Ht & ->)|[(t' & k' & Hg' & Hk' & Hp' & ->)
      |[(t' & k' & Hg' & Hk' & Hp' & Hc' & ->)|(t' & Hg' & ->)]]];
      unfold stuck; simpl.
    + split; [by rewrite list_lookup_insert_ne|]. by exists k.
    + split; [by rewrite list_lookup_insert_ne|]. simpl.
      exists k. split; [|done]. rewrite list_lookup_insert_ne; [done|].
      intros ->. congruence.
    + split; [by rewrite list_lookup_insert_ne|]. by exists k.
    + destruct (Collect_frame s) as (_ & Ht & Hr).
      split; simpl; [by rewrite list_lookup_insert_ne, Hr|].
      exists k. by rewrite Ht.
Qed.

Lemma stuck_run j t ls s s' :
  mu (gc s) = false → stuck j t s →
  run ls (Alive s) = Some (Alive s') → stuck j t s'.
Proof.
  intros Hmu Hst Hrun.
  cut (mu (gc s') = false ∧ stuck j t s'); [tauto|].
  revert Hrun.
  apply (run_invariant (λ s, mu (gc s) = false ∧ stuck j t s)); [|done].
  intros l s1 s2 [Hm1 Hs1] Hstep.
  split; [by destruct (gc_step l s1 s2 Hm1 Hstep)|]. by eapply stuck_step.
Qed.

(** A ticker keeps its period, and a stopped ticker stays stopped. *)
Lemma ticker_step t k l s s' :
  mu (gc s) = false → tickers s !! t = Some k → step l s = Some (Alive s') →
  ∃ k', tickers s' !! t = Some k' ∧ period k' = period k
        ∧ (active k = false → active k' = false).
Proof.
  intros Hmu Hk Hs. apply step_alive in Hs; [|done].
  destruct l as [d|d| | | |d|t'|i].
  - subst s'. by exists k.
  - subst s'. by exists k.
  - destruct Hs as [(t' & Ht & ->)|(Ht & Hi & ->)]; [by exists k|].
    exists k. split; [by apply lookup_app_l_Some|done].
  - destruct Hs as [(Ht & ->)|(t' & Ht & ->)]; [by exists k|].
    simpl. rewrite list_lookup_alter. case_decide.
    + subst t'. rewrite Hk. simpl. by exists (stopped k).
    + by exists k.
  - subst s'. destruct (Collect_frame s) as (_ & Ht & _).
    exists k. by rewrite Ht.
  - destruct Hs as [_ ->]. by exists k.
  - destruct Hs as (k' & Hk' & Ha' & _ & ->). simpl.
    destruct (decide (t' = t)) as [->|Hne].
    + simplify_eq. exists (ticked k). split; [|done].
      apply list_lookup_insert_eq. by eapply lookup_lt_Some.
    + exists k. by rewrite list_lookup_insert_ne.
  - destruct Hs as [(Hg' & t' & Ht & ->)|[(t' & k' & Hg' & Hk' & Hp' & ->)
      |[(t' & k' & Hg' & Hk' & Hp' & Hc' & ->)|(t' & Hg' & ->)]]]; simpl.
    + by exists k.
    + destruct (decide (t' = t)) as [->|Hne].
      * simplify_eq. exists (received k). split; [|done].
        apply list_lookup_insert_eq. by eapply lookup_lt_Some.
      * exists k. by rewrite list_lookup_insert_ne.
    + by exists k.
    + destruct (Collect_frame s) as (_ & Ht & _). exists k. by rewrite Ht.
Qed.

Lemma ticker_run t k ls s s' :
  mu (gc s) = false → tickers s !! t = Some k →
  run ls (Alive s) = Some (Alive s') →
  ∃ k', tickers s' !! t = Some k' ∧ period k' = period k
        ∧ (active k = false → active k' = false).
Proof.
  intros Hmu Hk Hrun.
  cut (mu (gc s') = false
       ∧ ∃ k', tickers s' !! t = Some k' ∧ period k' = period k
               ∧ (active k = false → active k' = false)); [tauto|].
  revert Hrun.
  apply (run_invariant (λ s, mu (gc s) = false
           ∧ ∃ k', tickers s !! t = Some k' ∧ period k' = period k
                   ∧ (active k = false → active k' = false))).
  - intros l s1 s2 [Hm1 (k1 & Hk1 & Hp1 & Ha1)] Hstep.
    split; [by destruct (gc_step l s1 s2 Hm1 Hstep)|].
    destruct (ticker_step t k1 l s1 s2) as (k2 & Hk2 & Hp2 & Ha2);
      [done|done|done|].
    exists k2. split; [done|]. split; [congruence|]. auto.
  - split; [done|]. by exists k.
Qed.

(** ** The configuration: New, MaxAge, Interval *)

(** C9.  New(dir) makes no system call and changes nothing: it returns a
    collector for [dir] that is stopped (no ticker, and so no goroutine),
    with a max age of seven days (168 hours) and an interval of one
    hour. *)
Theorem New_defaults d w :
  ∃ g, New d w = (Returned g, w)
       ∧ dir g = d
       ∧ maxAge g = 7 * day ∧ maxAge g = 168 * Hour
       ∧ interval g = 1 * Hour
       ∧ ticker g = None ∧ mu g = false
       ∧ tickers (boot g w) = [] ∧ goroutines (boot g w) = [].
Proof. eexists. split; [reflexivity|]. repeat split; reflexivity. Qed.

Lemma run_invariant_where (Q : Label → bool) (P : System → Prop) :
  (∀ l s s', Q l = true → P s → step l s = Some (Alive s') → P s') →
  ∀ ls s s', forallb Q ls = true → P s →
             run ls (Alive s) = Some (Alive s') → P s'.
Proof.
  intros Hstep ls. induction ls as [|l ls IH]; intros s s' HQ HP Hrun;
    simpl in Hrun, HQ.
  - by simplify_eq.
  - apply andb_true_iff in HQ as [Hl HQ].
    destruct (step l s) as [[s1|]|] eqn:Hs; [|by destruct ls|done].
    eapply IH; [done| |done]. eauto.
Qed.

(** The removals of a sweep are those that the max age of the moment
    asks for. *)
Lemma Collect_removals s :
  mu (gc s) = false →
  removals (since (length (trace (world s))) (world (Collect s).2))
  = swept (maxAge (gc s)) s.
Proof.
  intros Hmu. unfold swept. destruct (dir_error s) as [e|] eqn:He.
  - destruct (Collect_failed s e Hmu He)
      as (w' & calls & -> & _ & _ & _ & Htr & Hrm & _).
    unfold with_world; cbn [snd world]. by rewrite (since_app _ _ _ Htr).
  - destruct (dir_error_None s He) as (d & Hd & Ho & Hr).
    destruct (Collect_sweep s d Hmu Hd Ho Hr) as (s' & d' & k & HC & _ & Hrm & _).
    rewrite HC, Hd. cbn [snd]. exact Hrm.
Qed.

(** C7.  A call of MaxAge takes effect at once and for every later
    sweep, the manual ones (a call of Collect) and the scheduled ones
    (the call in the loop of the goroutine) alike: whatever the program
    does after the call, short of another call of MaxAge, a sweep removes
    what the new max age asks for.  The call touches nothing but maxAge,
    so a collector that runs keeps its ticker. *)
Theorem MaxAge_governs_later_sweeps s d ls s1 l s2 :
  mu (gc s) = false →
  forallb (λ l, negb (is_CallMaxAge l)) ls = true →
  run (CallMaxAge d :: ls) (Alive s) = Some (Alive s1) →
  sweep_step l s1 →
  step l s1 = Some (Alive s2) →
  MaxAge d s = (Returned tt, with_gc (set_maxAge d) s)
  ∧ maxAge (gc s1) = d
  ∧ removals (since (length (trace (world s1))) (world s2)) = swept d s1.
Proof.
  intros Hmu Hls Hrun Hsw Hstep.
  split; [by apply MaxAge_unlocked|].
  cbn [run step] in Hrun. rewrite MaxAge_unlocked in Hrun by done.
  cbn [complete] in Hrun.
  assert (mu (gc s1) = false ∧ maxAge (gc s1) = d) as [Hmu1 Hage].
  { revert Hrun.
    apply (run_invariant_where (λ l, negb (is_CallMaxAge l))
             (λ s, mu (gc s) = false ∧ maxAge (gc s) = d)); [|done|done].
    intros l0 sa sb Hl [Ha Hb] Hs. apply negb_true_iff in Hl.
    destruct (gc_step l0 sa sb Ha Hs) as (? & _ & Hm & _).
    split; [done|]. rewrite Hm; done. }
  split; [done|]. rewrite <- Hage.
  assert (world s2 = world (Collect s1).2) as ->.
  { apply step_alive in Hstep; [|done].
    destruct Hsw as [->|(i & t & -> & Hg)]; [by subst s2|].
    destruct Hstep as [(Hg' & _)|[(t' & k' & Hg' & _)
      |[(t' & k' & Hg' & _)|(t' & Hg' & ->)]]]; by simplify_eq. }
  by apply Collect_removals.
Qed.

Lemma MaxAge_governs_later_sweeps_witness :
  maxAge (gc example_ticked) = 12 * Hour
  ∧ removals (since (length (trace (world example_ticked))) (world example_swept))
    = swept (12 * Hour) example_ticked.
Proof.
  destruct (MaxAge_governs_later_sweeps example_system (12 * Hour)
              example_schedule example_ticked (Run 0) example_swept)
    as (_ & H2 & H3).
  - reflexivity.
  - reflexivity.
  - vm_compute. reflexivity.
  - right. exists 0%nat, 0%nat. split; [reflexivity|]. vm_compute. reflexivity.
  - vm_compute. reflexivity.
  - split; [exact H2|exact H3].
Defined.

(** ** The lifecycle: Start and Stop *)

Lemma run_step l ls s s' :
  step l s = Some (Alive s') → run (l :: ls) (Alive s) = run ls (Alive s').
Proof. intros H. simpl. by rewrite H. Qed.

Lemma alter_snoc {A} (f : A → A) (l : list A) (x : A) :
  alter f (length l) (l ++ [x]) = l ++ [f x].
Proof. induction l as [|y l IH]; [done|]. simpl. f_equal. exact IH. Qed.

Lemma Collect_clock s : clock (world (Collect s).2) = clock (world s).
Proof.
  destruct (mu (gc s)) eqn:Hmu; [by rewrite Collect_blocked|].
  destruct (dir_error s) as [e|] eqn:He.
  - destruct (Collect_failed s e Hmu He) as (w' & calls & HC & _ & Hc & _).
    by rewrite HC.
  - destruct (dir_error_None s He) as (d & Hd & Ho & Hr).
    rewrite (Collect_listed s d) by done. apply Collect_world_clock.
Qed.

(** *** The sweeps of the schedule *)

(** With the mutex free, Collect opens the directory, once. *)
Lemma Collect_opens_once s :
  mu (gc s) = false →
  ∃ calls, trace (world (Collect s).2) = trace (world s) ++ calls
           ∧ sweeps calls = 1%nat.
Proof.
  intros Hmu. destruct (dir_error s) as [e|] eqn:He.
  - destruct (Collect_failed s e Hmu He)
      as (w' & calls & -> & _ & _ & _ & Htr & _ & Hsw).
    by exists calls.
  - destruct (dir_error_None s He) as (d & Hd & Ho & Hr).
    rewrite (Collect_listed s d) by done. unfold with_world; cbn [snd world].
    rewrite (Collect_world_trace _ _ _ Hd Ho). eexists. split; [done|].
    rewrite !sweeps_app, sweeps_SysRemove. reflexivity.
Qed.

Lemma sweeping_insert gs i r r' :
  gs !! i = Some r →
  (length (filter (λ r, is_GoBody r) (<[i := r']> gs))
   + (if is_GoBody r then 1 else 0)
   = length (filter (λ r, is_GoBody r) gs)
     + (if is_GoBody r' then 1 else 0))%nat.
Proof.
  revert i. induction gs as [|g gs IH]; intros [|i] H; simplify_eq/=.
  - rewrite !filter_cons. destruct (is_GoBody r), (is_GoBody r'); simpl; lia.
  - rewrite !filter_cons. specialize (IH i H).
    destruct (decide (is_GoBody g)); simpl; lia.
Qed.

(** The sweep loop is no faster than its ticker: after Start on an idle
    collector, and as long as the program leaves the schedule to itself
    (the runtime steps, and calls of the setters), the sweeps made so far
    are at most one for every interval, as it was at the call of Start,
    that has passed since. *)
Lemma sweep_rate s ls s2 :
  mu (gc s) = false → ticker (gc s) = None → 0 < interval (gc s) → idle s →
  forallb keeps_schedule ls = true →
  run ls (Alive (started s)) = Some (Alive s2) →
  interval (gc s) * Z.of_nat (sweeps (since (length (trace (world s))) (world s2)))
  <= clock (world s2) - clock (world s).
Proof.
  intros Hmu Ht Hd [Hold Hno] Hls Hrun.
  set (P := λ s' : System,
     mu (gc s') = false ∧ ticker (gc s') = Some (length (tickers s))
     ∧ (∀ t k, t ≠ length (tickers s) → tickers s' !! t = Some k →
               active k = false ∧ pending k = false)
     ∧ ∃ k (F : nat) calls,
         tickers s' !! length (tickers s) = Some k
         ∧ period k = interval (gc s)
         ∧ next_tick k = clock (world s) + (Z.of_nat F + 1) * interval (gc s)
         ∧ trace (world s') = trace (world s) ++ calls
         ∧ (sweeps calls + sweeping s' + (if pending k then 1 else 0) ≤ F)%nat
         ∧ Z.of_nat F * interval (gc s) <= clock (world s') - clock (world s)).
  assert (P s2) as (_ & _ & _ & k & F & calls & _ & _ & _ & Htr & Hle & Hclk).
  { revert Hrun. apply (run_invariant_where keeps_schedule P); [|done|].
    - clear s2. intros l s1 s1' Hl
        (Hm & Hh & Hoth & k & F & calls & Hk & Hp & Hn & Htr & Hle & Hclk) Hstep.
      apply step_alive in Hstep; [|done].
      destruct l as [a|a| | | |a|t|i]; try done.
      + subst s1'. unfold P; simpl. split; [done|]. split; [done|].
        split; [done|]. by exists k, F, calls.
      + subst s1'. unfold P; simpl. split; [done|]. split; [done|].
        split; [done|]. by exists k, F, calls.
      + destruct Hstep as [Ha ->]. unfold P; simpl. split; [done|].
        split; [done|]. split; [done|]. exists k, F, calls.
        repeat split; try done. lia.
      + destruct Hstep as (k' & Hk' & Ha & Hn' & ->).
        destruct (decide (t = length (tickers s))) as [->|Hne];
          [|destruct (Hoth t k' Hne Hk') as [? _]; congruence].
        simplify_eq. unfold P; simpl. split; [done|]. split; [done|]. split.
        { intros t k1 Hne. rewrite list_lookup_insert_ne by done. by apply Hoth. }
        exists (ticked k), (S F), calls.
        split; [apply list_lookup_insert_eq; by eapply lookup_lt_Some|].
        simpl. split; [done|]. split; [rewrite Hn, Hp; lia|].
        split; [done|]. split; [unfold sweeping in *; simpl; destruct (pending k); lia|].
        lia.
      + destruct Hstep as [(Hg & t & Htt & ->)|[(t & k' & Hg & Hk' & Hp' & ->)
          |[(t & k' & Hg & Hk' & Hp' & Hcl & ->)|(t & Hg & ->)]]]; unfold P; simpl.
        * split; [done|]. split; [done|]. split; [done|].
          exists k, F, calls. repeat split; try done.
          pose proof (sweeping_insert (goroutines s1) i GoSpawned (GoReceive t) Hg).
          unfold sweeping in *; simpl in *. lia.
        * destruct (decide (t = length (tickers s))) as [->|Hne];
            [|destruct (Hoth t k' Hne Hk') as [_ ?]; congruence].
          simplify_eq. split; [done|]. split; [done|]. split.
          { intros t k1 Hne. rewrite list_lookup_insert_ne by done. by apply Hoth. }
          exists (received k), F, calls.
          split; [apply list_lookup_insert_eq; by eapply lookup_lt_Some|].
          simpl. repeat split; try done.
          pose proof (sweeping_insert (goroutines s1) i (GoReceive (length (tickers s)))
                        (GoBody (length (tickers s))) Hg).
          rewrite Hp' in Hle. unfold sweeping in *; simpl in *. lia.
        * split; [done|]. split; [done|]. split; [done|].
          exists k, F, calls. repeat split; try done.
          pose proof (sweeping_insert (goroutines s1) i (GoReceive t) GoDone Hg).
          unfold sweeping in *; simpl in *. lia.
        * destruct (Collect_frame s1) as (Hgc & Htk & Hgr).
          destruct (Collect_opens_once s1 Hm) as (c1 & Htr1 & Hsw1).
          rewrite Hgc, Htk, Collect_clock. split; [done|]. split; [done|].
          split; [done|]. exists k, F, (calls ++ c1).
          split; [done|]. split; [done|]. split; [done|].
          split; [by rewrite Htr1, Htr, app_assoc|]. split; [|done].
          pose proof (sweeping_insert (goroutines s1) i (GoBody t) (GoReceive t) Hg).
          rewrite sweeps_app, Hsw1. unfold sweeping in *; simpl in *.
          rewrite Hgr. lia.
    - unfold P; simpl. split; [done|]. split; [done|]. split.
      { intros t k Hne [[_ Hk]|[? _]]%lookup_snoc_Some; [by eapply Hold|done]. }
      exists (new_ticker s), 0%nat, [].
      split; [apply lookup_snoc_Some; auto|].
      split; [done|]. split; [simpl; lia|]. split; [by rewrite app_nil_r|].
      split; [|lia]. unfold sweeping in *; simpl.
      rewrite filter_app, length_app. simpl. lia. }
  rewrite (since_app _ _ _ Htr). nia.
Qed.

(** One round of a prompt runtime is a run of the program: it takes one
    period and makes one sweep, and the goroutine waits again. *)
Lemma round_run d t i s :
  waiting d t i s → 0 <= d →
  ∃ s', run (round d t i) (Alive s) = Some (Alive s')
        ∧ waiting d t i s'
        ∧ gc s' = gc s
        ∧ clock (world s') = clock (world s) + d
        ∧ ∃ calls, trace (world s') = trace (world s) ++ calls
                   ∧ sweeps calls = 1%nat.
Proof.
  intros (Hmu & Hg & k & Hk & Hp & Ha & Hpe & Hn) Hd.
  assert (t < length (tickers s))%nat as Hlt by by eapply lookup_lt_Some.
  assert (i < length (goroutines s))%nat as Hli by by eapply lookup_lt_Some.
  set (s1 := advance d s).
  set (s2 := with_tickers (λ ts, <[t := ticked k]> ts) s1).
  set (s3 := with_goroutines (λ gs, <[i := GoBody t]> gs)
               (with_tickers (λ ts, <[t := received (ticked k)]> ts) s2)).
  assert (mu (gc s3) = false) as Hmu3 by done.
  destruct (Collect_returns s3 Hmu3) as [r Hr].
  destruct (Collect_frame s3) as (Hgc & Htk & Hgr).
  destruct (Collect_opens_once s3 Hmu3) as (calls & Htr & Hsw).
  exists (with_goroutines (λ gs, <[i := GoReceive t]> gs) (Collect s3).2).
  assert (step (Advance d) s = Some (Alive s1)) as H1.
  { cbn [step]. by assert ((0 <=? d) = true) as -> by lia. }
  assert (step (Fire t) s1 = Some (Alive s2)) as H2.
  { cbn [step]. change (tickers s1) with (tickers s). rewrite Hk, Ha.
    change (clock (world s1)) with (clock (world s) + d).
    by rewrite Hn, Z.leb_refl. }
  assert (tickers s2 !! t = Some (ticked k)) as Hk2
    by (simpl; by apply list_lookup_insert_eq).
  assert (step (Run i) s2
          = Some (Alive s3)) as H3.
  { cbn [step]. change (goroutines s2) with (goroutines s). by rewrite Hg, Hk2. }
  assert (goroutines s3 !! i = Some (GoBody t)) as Hg3
    by (simpl; by apply list_lookup_insert_eq).
  assert (step (Run i) s3
          = Some (Alive (with_goroutines (λ gs, <[i := GoReceive t]> gs)
                           (Collect s3).2))) as H4.
  { cbn [step]. by rewrite Hg3, Hr. }
  split.
  { unfold round. rewrite (run_step _ _ _ _ H1), (run_step _ _ _ _ H2).
    by rewrite (run_step _ _ _ _ H3), (run_step _ _ _ _ H4). }
  split.
  { split; [simpl; by rewrite Hgc|]. split.
    - simpl. rewrite Hgr. apply list_lookup_insert_eq.
      simpl. by rewrite length_insert.
    - exists (received (ticked k)). simpl. rewrite Htk. simpl.
      rewrite list_insert_insert_eq. split; [by apply list_lookup_insert_eq|].
      split; [done|]. split; [done|]. split; [done|].
      rewrite Collect_clock. simpl. lia. }
  split; [simpl; by rewrite Hgc|].
  split; [simpl; by rewrite Collect_clock|].
  exists calls. by split.
Qed.

Lemma rounds_run d t i n : ∀ s,
  waiting d t i s → 0 <= d →
  ∃ s', run (rounds n d t i) (Alive s) = Some (Alive s')
        ∧ waiting d t i s'
        ∧ gc s' = gc s
        ∧ clock (world s') = clock (world s) + Z.of_nat n * d
        ∧ ∃ calls, trace (world s') = trace (world s) ++ calls
                   ∧ sweeps calls = n.
Proof.
  induction n as [|n IH]; intros s Hw Hd.
  - exists s. split; [done|]. split; [done|]. split; [done|].
    split; [simpl; lia|]. exists []. by rewrite app_nil_r.
  - destruct (round_run d t i s Hw Hd)
      as (s1 & Hrun1 & Hw1 & Hgc1 & Hclk1 & c1 & Htr1 & Hsw1).
    destruct (IH s1 Hw1 Hd) as (s2 & Hrun2 & Hw2 & Hgc2 & Hclk2 & c2 & Htr2 & Hsw2).
    exists s2. split.
    { cbn [rounds]. rewrite run_app, Hrun1. exact Hrun2. }
    split; [done|]. split; [congruence|]. split; [lia|].
    exists (c1 ++ c2). split; [by rewrite Htr2, Htr1, app_assoc|].
    rewrite sweeps_app. lia.
Qed.

(** After Start, once its goroutine has entered the loop, the schedule
    is under way. *)
Lemma started_waiting s :
  mu (gc s) = false →
  waiting (interval (gc s)) (length (tickers s)) (length (goroutines s))
    (with_goroutines (λ gs, <[length (goroutines s) := GoReceive (length (tickers s))]> gs)
       (started s)).
Proof.
  intros Hmu. split; [done|]. split.
  - simpl. apply list_lookup_insert_eq. rewrite length_app. simpl. lia.
  - exists (new_ticker s). split; [|done]. simpl. apply lookup_snoc_Some. auto.
Qed.

Lemma started_loop s :
  step (Run (length (goroutines s))) (started s)
  = Some (Alive (with_goroutines
                   (λ gs, <[length (goroutines s) := GoReceive (length (tickers s))]> gs)
                   (started s))).
Proof.
  cbn [step].
  assert (goroutines (started s) !! length (goroutines s) = Some GoSpawned) as ->
    by (simpl; apply lookup_snoc_Some; auto).
  done.
Qed.

Lemma waiting_set_interval d' d t i s :
  waiting d t i s → waiting d t i (with_gc (set_interval d') s).
Proof. intros (? & ? & ?). by split. Qed.

(** C8.  The period of the sweep loop is the interval that the collector
    has when Start is called.  Start makes a ticker of that period, due
    for the first time one interval later, and a goroutine that sweeps
    once for each tick it takes from the ticker.  A call of Interval on
    the running collector changes the field and no ticker; the ticker
    keeps its period whatever the program does next.  So, on a collector
    that was idle, the sweeps of the loop are at most one per interval
    as it was at Start, whatever Interval is called with in the
    meantime, and with a prompt runtime they are exactly one per such
    interval.  The new interval is the period of the ticker that the
    next Start creates, and of the sweeps of the loop that it starts. *)
Theorem Start_fixes_period s :
  mu (gc s) = false → ticker (gc s) = None → 0 < interval (gc s) →
  ∃ s1 t i k,
    Start s = (Returned tt, s1)
    ∧ ticker (gc s1) = Some t
    ∧ tickers s1 !! t = Some k
    ∧ period k = interval (gc s)
    ∧ next_tick k = clock (world s) + interval (gc s)
    ∧ active k = true
    ∧ goroutines s1 !! i = Some GoSpawned
    ∧ step (Fire t) s1 = None
    ∧ (∀ d, ∃ s2,
         Interval d s1 = (Returned tt, s2)
         ∧ interval (gc s2) = d
         ∧ ticker (gc s2) = Some t
         ∧ tickers s2 = tickers s1)
    ∧ (∀ ls s2,
         run ls (Alive s1) = Some (Alive s2) →
         ∃ k2, tickers s2 !! t = Some k2 ∧ period k2 = interval (gc s))
    ∧ (idle s →
       ∀ ls s2,
         forallb keeps_schedule ls = true →
         run ls (Alive s1) = Some (Alive s2) →
         interval (gc s)
         * Z.of_nat (sweeps (since (length (trace (world s))) (world s2)))
         <= clock (world s2) - clock (world s))
    ∧ (∀ d n, ∃ s2,
         run (Run i :: CallInterval d :: rounds n (interval (gc s)) t i) (Alive s1)
         = Some (Alive s2)
         ∧ interval (gc s2) = d
         ∧ clock (world s2) = clock (world s) + Z.of_nat n * interval (gc s)
         ∧ sweeps (since (length (trace (world s))) (world s2)) = n)
    ∧ (∀ d, 0 < d →
         (∃ s4 t' k',
            run [CallInterval d; CallStop; CallStart] (Alive s1) = Some (Alive s4)
            ∧ ticker (gc s4) = Some t' ∧ t' ≠ t
            ∧ tickers s4 !! t' = Some k'
            ∧ period k' = d ∧ active k' = true)
         ∧ (idle s →
            ∀ ls s2,
              forallb keeps_schedule ls = true →
              run ([Run i; CallInterval d; CallStop; CallStart] ++ ls) (Alive s1)
              = Some (Alive s2) →
              d * Z.of_nat (sweeps (since (length (trace (world s))) (world s2)))
              <= clock (world s2) - clock (world s))
         ∧ ∀ n, ∃ s2,
             run ([Run i; CallInterval d; CallStop; CallStart; Run (S i)]
                  ++ rounds n d (S t) (S i)) (Alive s1)
             = Some (Alive s2)
             ∧ clock (world s2) = clock (world s) + Z.of_nat n * d
             ∧ sweeps (since (length (trace (world s))) (world s2)) = n).
Proof.
  intros Hmu Ht Hi.
  assert (tickers (started s) !! length (tickers s) = Some (new_ticker s)) as Hk.
  { simpl. apply lookup_snoc_Some. auto. }
  set (sa := with_goroutines
               (λ gs, <[length (goroutines s) := GoReceive (length (tickers s))]> gs)
               (started s)).
  exists (started s), (length (tickers s)), (length (goroutines s)), (new_ticker s).
  split; [by apply Start_stopped|]. split; [done|]. split; [done|].
  split; [done|]. split; [done|]. split; [done|].
  split; [simpl; apply lookup_snoc_Some; auto|]. split.
  { cbn [step]. rewrite Hk. simpl.
    destruct (_ <=? _) eqn:E; [lia|done]. }
  split.
  { intros d. eexists. split; [by apply Interval_unlocked|]. done. }
  split.
  { intros ls s2 Hrun.
    destruct (ticker_run _ _ ls (started s) s2 Hmu Hk Hrun) as (k2 & Hk2 & Hp & _).
    by exists k2. }
  split.
  { intros Hidle ls s2 Hls Hrun. by apply (sweep_rate s ls s2). }
  split.
  { intros d n.
    destruct (rounds_run (interval (gc s)) (length (tickers s))
                (length (goroutines s)) n (with_gc (set_interval d) sa))
      as (s2 & Hrun & _ & Hgc & Hclk & calls & Htr & Hsw);
      [by apply waiting_set_interval, started_waiting|lia|].
    exists s2. split.
    { rewrite (run_step _ _ _ _ (started_loop s)). fold sa.
      cbn [run step]. rewrite Interval_unlocked by done. cbn [complete].
      exact Hrun. }
    split; [by rewrite Hgc|]. split; [exact Hclk|].
    by rewrite (since_app (world s) _ _ Htr). }
  intros d Hd.
  set (sb := with_gc (set_interval d) sa).
  set (sc := halted (length (tickers s)) sb).
  assert (tickers sc = tickers s ++ [stopped (new_ticker s)]) as Htc
    by (simpl; apply alter_snoc).
  assert (length (goroutines sc) = S (length (goroutines s))) as Hgl
    by (simpl; rewrite length_insert, length_app; simpl; lia).
  assert (length (tickers sc) = S (length (tickers s))) as Htl
    by (rewrite Htc, length_app; simpl; lia).
  assert (run [Run (length (goroutines s)); CallInterval d; CallStop; CallStart]
            (Alive (started s)) = Some (Alive (started sc))) as Hrestart.
  { rewrite (run_step _ _ _ _ (started_loop s)). fold sa.
    cbn [run step]. rewrite Interval_unlocked by done. cbn [complete]. fold sb.
    rewrite (Stop_running sb (length (tickers s))) by done. cbn [complete].
    fold sc. by rewrite (Start_stopped sc) by done. }
  split; [|split].
  - set (s2 := with_gc (set_interval d) (started s)).
    set (s3 := halted (length (tickers s)) s2).
    exists (started s3), (length (tickers s3)), (new_ticker s3).
    split.
    { cbn [run step]. rewrite Interval_unlocked by done. cbn [complete].
      fold s2. rewrite (Stop_running s2 (length (tickers s))) by done.
      cbn [complete]. fold s3. rewrite (Start_stopped s3) by done. done. }
    split; [done|]. split.
    { simpl. rewrite length_alter, length_app. simpl. lia. }
    split; [|done]. simpl. apply lookup_snoc_Some. auto.
  - intros [Hold Hno] ls s2 Hls Hrun. rewrite run_app, Hrestart in Hrun.
    apply (sweep_rate sc ls s2); try done. split.
    + intros t k. rewrite Htc. intros [[_ Hk']|[_ <-]]%lookup_snoc_Some;
        [by eapply Hold|done].
    + pose proof (sweeping_insert (goroutines s ++ [GoSpawned])
                    (length (goroutines s)) GoSpawned
                    (GoReceive (length (tickers s)))) as Hins.
      unfold sweeping in *. simpl in *.
      rewrite filter_app, length_app in Hins. simpl in Hins.
      specialize (Hins ltac:(apply lookup_snoc_Some; auto)). lia.
  - intros n.
    destruct (rounds_run d (S (length (tickers s))) (S (length (goroutines s))) n
                (with_goroutines
                   (λ gs, <[length (goroutines sc) := GoReceive (length (tickers sc))]> gs)
                   (started sc)))
      as (s2 & Hrun & _ & Hgc & Hclk & calls & Htr & Hsw); [|lia|].
    { rewrite <- Hgl, <- Htl. by apply (started_waiting sc). }
    exists s2. split.
    { change [Run (length (goroutines s)); CallInterval d; CallStop; CallStart;
              Run (S (length (goroutines s)))]
        with ([Run (length (goroutines s)); CallInterval d; CallStop; CallStart]
              ++ [Run (S (length (goroutines s)))]).
      rewrite <- app_assoc, run_app, Hrestart. cbn [mbind option_bind].
      cbn [app]. rewrite <- Hgl at 1.
      rewrite (run_step _ _ _ _ (started_loop sc)). exact Hrun. }
    split; [exact Hclk|]. by rewrite (since_app (world s) _ _ Htr).
Qed.

Lemma Start_fixes_period_witness :
  ∃ s1 s2 k,
    Start example_system = (Returned tt, s1)
    ∧ tickers s1 !! 0%nat = Some k
    ∧ period k = 1 * Hour
    ∧ run (Run 0 :: CallInterval Minute :: rounds 3 Hour 0 0) (Alive s1)
      = Some (Alive s2)
    ∧ clock (world s2) = example_now + 3 * Hour
    ∧ sweeps (trace (world s2)) = 3%nat
    ∧ ∀ ls s3,
        forallb keeps_schedule ls = true →
        run ls (Alive s1) = Some (Alive s3) →
        Hour * Z.of_nat (sweeps (trace (world s3)))
        <= clock (world s3) - example_now.
Proof.
  destruct (Start_fixes_period example_system)
    as (s1 & t & i & k & H1 & H2 & H3 & H4 & _ & _ & _ & _ & _ & _ & H5 & H6 & _);
    [reflexivity|reflexivity|reflexivity|].
  assert (s1 = (Start example_system).2) as Hs1 by by rewrite H1.
  assert (t = 0%nat) as -> by (rewrite Hs1 in H2; vm_compute in H2; congruence).
  destruct (H6 Minute 3%nat) as (s2 & H7 & _ & H8 & H9).
  assert (i = 0%nat) as ->.
  { destruct i as [|i]; [done|]. exfalso. rewrite Hs1 in H7. vm_compute in H7.
    destruct i; discriminate. }
  exists s1, s2, k. split; [exact H1|]. split; [exact H3|]. split; [exact H4|].
  split; [exact H7|]. split; [exact H8|]. split; [exact H9|].
  apply H5. split; [|reflexivity].
  intros t k0 Hk0. vm_compute in Hk0. discriminate.
Defined.

(** Start on a collector that runs, and Stop on one that does not, are
    steps that change nothing at all: no ticker, no goroutine, no field. *)
Lemma Start_Stop_idempotent s :
  mu (gc s) = false →
  (is_Some (ticker (gc s)) → Start s = (Returned tt, s))
  ∧ (ticker (gc s) = None → Stop s = (Returned tt, s)).
Proof.
  intros Hmu. split.
  - intros [t Ht]. by apply (Start_running s t).
  - by apply Stop_stopped.
Qed.

(** At any time of any run from a fresh collector, through any number
    of restarts, at most one ticker ticks, and it is the one that the
    collector holds. *)
Lemma one_ticker_at_a_time g w ls s :
  mu g = false → ticker g = None →
  run ls (Alive (boot g w)) = Some (Alive s) →
  ∀ t1 t2 k1 k2,
    tickers s !! t1 = Some k1 → active k1 = true →
    tickers s !! t2 = Some k2 → active k2 = true →
    t1 = t2 ∧ ticker (gc s) = Some t1.
Proof.
  intros Hmu Ht Hrun t1 t2 k1 k2 H1 Ha1 H2 Ha2.
  assert (consistent s) as Hc
    by (eapply consistent_run; [by apply boot_consistent|done]).
  split; [by eapply consistent_one_active|]. by eapply cs_active.
Qed.

(** No goroutine of the program ever returns: nothing closes the channel
    that its loop ranges over. *)
Lemma goroutines_never_return g w ls s i :
  mu g = false → ticker g = None →
  run ls (Alive (boot g w)) = Some (Alive s) →
  goroutines s !! i ≠ Some GoDone.
Proof.
  intros Hmu Ht Hrun.
  assert (consistent s) as Hc
    by (eapply consistent_run; [by apply boot_consistent|done]).
  by apply cs_loops.
Qed.

(** C4, on the code.  A collector is started, its goroutine enters the
    loop, and Stop is called.  Stop returns with the ticker forgotten and
    stopped for good, so the schedule sends no further tick.  The
    goroutine, though, is not told: it waits on a channel that nobody
    closes and that no tick will reach, and no step of any continuation
    of the program lets it move again, let alone return. *)
Theorem Stop_leaves_goroutine_blocked g w :
  mu g = false → ticker g = None → 0 < interval g →
  ∃ s1,
    run [CallStart; Run 0; CallStop] (Alive (boot g w)) = Some (Alive s1)
    ∧ ticker (gc s1) = None
    ∧ goroutines s1 = [GoReceive 0]
    ∧ ∀ ls s2,
        run ls (Alive s1) = Some (Alive s2) →
        goroutines s2 !! 0%nat = Some (GoReceive 0)
        ∧ step (Run 0) s2 = None
        ∧ step (Fire 0) s2 = None.
Proof.
  intros Hmu Ht Hi.
  set (s0 := boot g w).
  set (sa := with_goroutines (λ gs, <[0%nat := GoReceive 0]> gs) (started s0)).
  exists (halted 0 sa).
  assert (stuck 0 0 (halted 0 sa)) as Hst.
  { split; [done|]. by exists (stopped (new_ticker s0)). }
  split.
  { cbn [run step]. rewrite (Start_stopped s0) by done. cbn [complete].
    change (goroutines (started s0) !! 0%nat) with (Some GoSpawned).
    change (ticker (gc (started s0))) with (Some 0%nat). cbn match.
    fold sa. rewrite (Stop_running sa 0) by done. done. }
  split; [done|]. split; [done|].
  intros ls s2 Hrun.
  pose proof (stuck_run 0 0 ls (halted 0 sa) s2 Hmu Hst Hrun) as Hst2.
  split; [by destruct Hst2|]. split; [by eapply stuck_no_step|].
  destruct Hst2 as (_ & k & Hk & Ha & _). cbn [step]. by rewrite Hk, Ha.
Qed.

Lemma Stop_leaves_goroutine_blocked_witness :
  ∃ s1,
    run [CallStart; Run 0; CallStop] (Alive example_system) = Some (Alive s1)
    ∧ goroutines s1 = [GoReceive 0].
Proof.
  destruct (Stop_leaves_goroutine_blocked example_gc example_world)
    as (s1 & H1 & _ & H2 & _); [reflexivity|reflexivity|reflexivity|].
  exists s1. split; [exact H1|exact H2].
Defined.

(** The same two calls made faster than the goroutine is scheduled: it
    evaluates gc.ticker.C when the ticker is nil again, and the program
    dies of a nil pointer dereference. *)
Lemma Stop_before_loop_crashes g w :
  mu g = false → ticker g = None → 0 < interval g →
  ∃ s, run [CallStart; CallStop; Run 0] (Alive (boot g w))
       = Some (Crashed
                 "runtime error: invalid memory address or nil pointer dereference"
                 s).
Proof.
  intros Hmu Ht Hi. set (s0 := boot g w). eexists.
  cbn [run step]. rewrite (Start_stopped s0) by done. cbn [complete].
  rewrite (Stop_running (started s0) 0) by done. cbn [complete].
  reflexivity.
Qed.

(** A tick that is in the channel when Stop is called is still received
    afterwards: the sweep it triggers starts after Stop has returned. *)
Lemma Stop_leaves_buffered_tick :
  ∃ s1 s2,
    run [CallStart; Run 0; Advance Hour; Fire 0; CallStop] (Alive example_system)
    = Some (Alive s1)
    ∧ ticker (gc s1) = None ∧ trace (world s1) = []
    ∧ run [Run 0; Run 0] (Alive s1) = Some (Alive s2)
    ∧ SysRemove "/var/sessions/session_1" ∈ trace (world s2).
Proof.
  exists (state_after [CallStart; Run 0; Advance Hour; Fire 0; CallStop]
            example_system),
    (state_after [CallStart; Run 0; Advance Hour; Fire 0; CallStop; Run 0; Run 0]
       example_system).
  split; [vm_compute; reflexivity|]. split; [reflexivity|].
  split; [reflexivity|]. split; [vm_compute; reflexivity|].
  apply list_elem_of_In. vm_compute. tauto.
Qed.

(** C5, on the code.  Start, Stop and Start again: there is one ticker
    that ticks and the collector holds it, but there are two goroutines
    in the sweep loop, the first of them left behind by Stop.  If the
    first goroutine is scheduled only after the restart, both loops range
    over the channel of the one live ticker. *)
Theorem restart_leaves_two_sweep_loops g w :
  mu g = false → ticker g = None → 0 < interval g →
  (∃ s, run [CallStart; Run 0; CallStop; CallStart; Run 1] (Alive (boot g w))
        = Some (Alive s)
        ∧ ticker (gc s) = Some 1%nat
        ∧ goroutines s = [GoReceive 0; GoReceive 1]
        ∧ sweep_loops s = 2%nat)
  ∧ (∃ s, run [CallStart; CallStop; CallStart; Run 0; Run 1] (Alive (boot g w))
          = Some (Alive s)
          ∧ ticker (gc s) = Some 1%nat
          ∧ goroutines s = [GoReceive 1; GoReceive 1]
          ∧ sweep_loops s = 2%nat).
Proof.
  intros Hmu Ht Hi. set (s0 := boot g w). split.
  - set (sa := with_goroutines (λ gs, <[0%nat := GoReceive 0]> gs) (started s0)).
    set (sb := started (halted 0 sa)).
    exists (with_goroutines (λ gs, <[1%nat := GoReceive 1]> gs) sb).
    split; [|done].
    cbn [run step]. rewrite (Start_stopped s0) by done. cbn [complete].
    change (goroutines (started s0) !! 0%nat) with (Some GoSpawned).
    change (ticker (gc (started s0))) with (Some 0%nat). cbn match.
    fold sa. rewrite (Stop_running sa 0) by done. cbn [complete].
    rewrite (Start_stopped (halted 0 sa)) by done. cbn [complete].
    fold sb. done.
  - set (sb := started (halted 0 (started s0))).
    exists (with_goroutines (λ gs, <[1%nat := GoReceive 1]> gs)
              (with_goroutines (λ gs, <[0%nat := GoReceive 1]> gs) sb)).
    split; [|done].
    cbn [run step]. rewrite (Start_stopped s0) by done. cbn [complete].
    rewrite (Stop_running (started s0) 0) by done. cbn [complete].
    rewrite (Start_stopped (halted 0 (started s0))) by done. cbn [complete].
    fold sb. done.
Qed.

Lemma restart_leaves_two_sweep_loops_witness :
  ∃ s, run [CallStart; Run 0; CallStop; CallStart; Run 1] (Alive example_system)
       = Some (Alive s)
       ∧ sweep_loops s = 2%nat.
Proof.
  destruct (restart_leaves_two_sweep_loops example_gc example_world)
    as [(s & H1 & _ & _ & H2) _]; [reflexivity|reflexivity|reflexivity|].
  exists s. split; [exact H1|exact H2].
Defined.

(** * Further properties of the sweep *)

(** X1.  Collect closes the directory it has opened, on every path: after
    the call, whatever its outcome (success, an error of Open, an error
    of Readdir after a successful Open, a held mutex), the open files of
    the process are those from before. *)
Theorem Collect_closes_what_it_opens s :
  open_files (world (Collect s).2) = open_files (world s).
Proof.
  destruct (mu (gc s)) eqn:Hmu; [by rewrite Collect_blocked|].
  destruct (dir_error s) as [e|] eqn:He.
  - destruct (Collect_failed s e Hmu He) as (w' & calls & HC & _ & _ & Hof & _).
    by rewrite HC.
  - destruct (dir_error_None s He) as (d & Hd & Ho & Hr).
    rewrite (Collect_listed s d) by done. by apply Collect_world_open_files.
Qed.

Lemma swept_listed s d age :
  fs (world s) !! dir (gc s) = Some d → d_open d = None → d_readdir d = None →
  swept age s
  = (λ fi, filepath_Join (dir (gc s)) (Name fi))
      <$> filter (λ fi, eligible (clock (world s)) age fi) (listing d).
Proof.
  intros Hd Ho Hr. unfold swept. by rewrite (dir_error_listed s d), Hd.
Qed.

Lemma swept_failed s e age : dir_error s = Some e → swept age s = [].
Proof. intros He. unfold swept. by rewrite He. Qed.



Lemma after_remove_Some (o : option Inode) i :
  o ≫= after_remove = Some i → o = Some i.
Proof.
  destruct o as [i0|]; [|done]. unfold after_remove; simpl.
  by destruct (i_unlink i0).
Qed.

(** What a sweep finds to remove right after a sweep, the first sweep
    found too. *)
Lemma swept_after_Collect s p :
  mu (gc s) = false →
  p ∈ swept (maxAge (gc s)) (Collect s).2 → p ∈ swept (maxAge (gc s)) s.
Proof.
  intros Hmu. destruct (Collect_frame s) as (Hg & _).
  destruct (dir_error s) as [e|] eqn:He.
  - unfold swept at 1, dir_error.
    rewrite Hg, (Collect_fs s Hmu), (swept_failed s e _ He).
    change (removed_all [] (fs (world s))) with (fs (world s)).
    fold (dir_error s). rewrite He. by intros ?%elem_of_nil.
  - destruct (dir_error_None s He) as (d & Hd & Ho & Hr).
    destruct (Collect_sweep s d Hmu Hd Ho Hr)
      as (s' & d' & k & HC & _ & _ & _ & _ & Hd' & Ho' & Hr' & Hent).
    assert ((Collect s).2 = s') as Hs' by by rewrite HC.
    rewrite <- Hs', <- Hg in Hd'.
    rewrite (swept_listed _ d' _ Hd' Ho' Hr'), (swept_listed s d _ Hd Ho Hr).
    rewrite Hg, Collect_clock, !list_elem_of_fmap.
    intros (fi & -> & Hfi). exists fi. split; [done|].
    apply elem_of_swept_listing in Hfi as (i & Hi & Hfi & Hel).
    apply elem_of_swept_listing. exists i. split; [|done].
    rewrite Hent in Hi. destruct (existsb _ _); [by apply after_remove_Some|done].
Qed.

(** X3.  A second sweep right after a sweep finds nothing left to do to
    the file system: Collect followed by Collect, with no time passing in
    between, leaves the files as the first call does (what the first
    sweep could not remove, the second cannot either). *)
Theorem Collect_twice_is_Collect_once s :
  mu (gc s) = false →
  fs (world (Collect (Collect s).2).2) = fs (world (Collect s).2).
Proof.
  intros Hmu.
  destruct (Collect_frame s) as (Hg & _).
  assert (mu (gc (Collect s).2) = false) as Hmu1 by by rewrite Hg.
  rewrite (Collect_fs (Collect s).2 Hmu1).
  apply removed_all_dead. intros p Hp.
  rewrite (Collect_fs s Hmu). apply dead_removed_all. left.
  rewrite Hg in Hp. by apply swept_after_Collect.
Qed.

Lemma Collect_twice_is_Collect_once_witness :
  fs (world (Collect (Collect example_system).2).2)
  = fs (world (Collect example_system).2).
Proof. apply (Collect_twice_is_Collect_once example_system). reflexivity. Defined.

(** *** Ages and thresholds *)

Lemma time_Sub_mono t t' u : t <= t' → time_Sub t u <= time_Sub t' u.
Proof.
  unfold time_Sub, minDuration, maxDuration; cbn zeta.
  intros H. repeat case_match; lia.
Qed.

Lemma eligible_later now now' age fi :
  now <= now' → eligible now age fi = true → eligible now' age fi = true.
Proof.
  intros Hle. rewrite !eligible_spec. intros (? & ? & ?).
  pose proof (time_Sub_mono now now' (ModTime fi) Hle). repeat split; [done..|lia].
Qed.

Lemma eligible_smaller now age age' fi :
  age' <= age → eligible now age fi = true → eligible now age' fi = true.
Proof.
  intros Hle. rewrite !eligible_spec. intros (? & ? & ?). repeat split; [done..|lia].
Qed.

Lemma eligible_never now age fi :
  maxDuration <= age → eligible now age fi = false.
Proof.
  intros Hle. apply not_true_is_false. rewrite eligible_spec. intros (_ & _ & H).
  pose proof (time_Sub_is_Duration now (ModTime fi)) as [_ ?]. lia.
Qed.

Lemma filter_none {A} (P : A → Prop) `{∀ x, Decision (P x)} (l : list A) :
  (∀ x, x ∈ l → ¬ P x) → filter P l = [].
Proof.
  induction l as [|x l IH]; intros Hn; [done|].
  rewrite filter_cons_False by (apply Hn; left).
  apply IH. intros y Hy. apply Hn. by right.
Qed.

(** X4.  A removal that fails is tried again by every later sweep: an
    expired session that could not be removed is still in the directory
    after the sweep, and a sweep at any later time attempts its removal
    again (an entry that has expired stays expired). *)
Theorem failed_removal_is_retried s d name i e dt :
  mu (gc s) = false →
  fs (world s) !! dir (gc s) = Some d → d_open d = None → d_readdir d = None →
  d_entries d !! name = Some i →
  i_mode i ≠ ModeDir →
  strings_HasPrefix name "session_" = true →
  maxAge (gc s) < time_Sub (clock (world s)) (i_mtime i) →
  i_unlink i = Some e →
  0 <= dt →
  ∃ d1,
    fs (world (Collect s).2) !! dir (gc s) = Some d1
    ∧ d_entries d1 !! name = Some i
    ∧ filepath_Join (dir (gc s)) name
        ∈ removals (since (length (trace (world (Collect s).2)))
                      (world (Collect (advance dt (Collect s).2)).2)).
Proof.
  intros Hmu Hd Ho Hr Hi Hmode Hpre Hage Hu Hdt.
  assert (eligible (clock (world s)) (maxAge (gc s)) (file_info (name, i)) = true)
    as Hel by by apply eligible_file_info.
  destruct (Collect_sweep s d Hmu Hd Ho Hr)
    as (s' & d1 & k & HC & _ & _ & _ & _ & Hd1 & Ho1 & Hr1 & He1).
  assert ((Collect s).2 = s') as Hs' by by rewrite HC.
  destruct (Collect_frame s) as (Hg & _).
  rewrite Hs'. exists d1. split; [done|].
  assert (d_entries d1 !! name = Some i) as Hi1.
  { rewrite He1, Hi. simpl. unfold after_remove. rewrite Hu.
    by destruct (existsb _ _). }
  split; [done|].
  set (s1 := advance dt s').
  assert (gc s1 = gc s) as Hg1 by (simpl; by rewrite <- Hs').
  assert (mu (gc s1) = false) as Hmu1 by by rewrite Hg1.
  assert (fs (world s1) !! dir (gc s1) = Some d1) as Hd1' by by rewrite Hg1.
  change (trace (world s')) with (trace (world s1)).
  rewrite (Collect_removals s1 Hmu1), (swept_listed s1 d1 _ Hd1' Ho1 Hr1).
  rewrite Hg1. apply list_elem_of_fmap. exists (file_info (name, i)).
  split; [done|]. apply elem_of_swept_listing. exists i.
  split; [done|]. split; [done|]. simpl.
  apply (eligible_later (clock (world s))); [|done].
  change (clock (world s1)) with (clock (world s') + dt).
  rewrite <- Hs', Collect_clock. lia.
Qed.

Lemma failed_removal_is_retried_witness :
  "/var/sessions/session_locked"
    ∈ removals (since (length (trace (world (Collect example_system).2)))
                  (world (Collect (advance Hour (Collect example_system).2)).2)).
Proof.
  destruct (failed_removal_is_retried example_system example_node
              "session_locked"
              {| i_mode := ModeRegular; i_mtime := example_now - 9 * day;
                 i_unlink := Some EACCES |} EACCES Hour)
    as (d1 & _ & _ & H);
    [reflexivity|vm_compute; reflexivity|reflexivity|reflexivity
    |vm_compute; reflexivity
    |discriminate|reflexivity|reflexivity|reflexivity|discriminate|].
  exact H.
Defined.

(** X5.  Raising the max age can only spare entries: every removal that
    a sweep attempts with a larger max age, the sweep of the same
    directory at the same time with the smaller max age attempts too. *)
Theorem larger_maxAge_sweeps_less s b x :
  mu (gc s) = false →
  maxAge (gc s) <= b →
  x ∈ removals (since (length (trace (world s)))
                  (world (Collect (with_gc (set_maxAge b) s)).2)) →
  x ∈ removals (since (length (trace (world s))) (world (Collect s).2)).
Proof.
  intros Hmu Hle.
  rewrite (Collect_removals s Hmu).
  change (length (trace (world s)))
    with (length (trace (world (with_gc (set_maxAge b) s)))) at 1.
  rewrite (Collect_removals (with_gc (set_maxAge b) s) Hmu).
  unfold swept. change (dir_error (with_gc (set_maxAge b) s)) with (dir_error s).
  cbn [maxAge gc with_gc set_maxAge world dir].
  destruct (dir_error s); [done|].
  destruct (fs (world s) !! dir (gc s)) as [d|]; [|done].
  rewrite !list_elem_of_fmap. intros (fi & -> & Hin). exists fi. split; [done|].
  apply list_elem_of_filter in Hin as [Hel Hin]. apply list_elem_of_filter.
  split; [|done]. apply Is_true_true. apply Is_true_true in Hel.
  by apply (eligible_smaller _ b).
Qed.

Lemma larger_maxAge_sweeps_less_witness :
  "/var/sessions/session_link"
    ∈ removals (since (length (trace (world example_system)))
                  (world (Collect example_system).2)).
Proof.
  apply (larger_maxAge_sweeps_less example_system (8 * day + Hour)).
  - reflexivity.
  - vm_compute. discriminate.
  - apply list_elem_of_In. vm_compute. tauto.
Defined.

(** X6.  A max age of the largest duration (math.MaxInt64 nanoseconds) or
    more switches the collector off: no age that now.Sub can return
    exceeds it, so no sweep attempts a removal and the file system is
    left as it is. *)
Theorem largest_maxAge_disables_sweep s :
  mu (gc s) = false →
  maxDuration <= maxAge (gc s) →
  removals (since (length (trace (world s))) (world (Collect s).2)) = []
  ∧ fs (world (Collect s).2) = fs (world s).
Proof.
  intros Hmu Hmax.
  assert (swept (maxAge (gc s)) s = []) as Hnone.
  { unfold swept. destruct (dir_error s); [done|].
    destruct (fs (world s) !! dir (gc s)) as [d|]; [|done].
    rewrite filter_none; [done|]. intros fi _ Hel.
    apply Is_true_true in Hel. by rewrite eligible_never in Hel. }
  split.
  - by rewrite (Collect_removals s Hmu).
  - by rewrite (Collect_fs s Hmu), Hnone.
Qed.

Lemma largest_maxAge_disables_sweep_witness :
  removals (since 0 (world (Collect (with_gc (set_maxAge maxDuration)
                                       example_system)).2)) = []
  ∧ fs (world (Collect (with_gc (set_maxAge maxDuration) example_system)).2)
    = fs example_world.
Proof.
  apply (largest_maxAge_disables_sweep
           (with_gc (set_maxAge maxDuration) example_system)).
  - reflexivity.
  - vm_compute. discriminate.
Defined.

(** X7.  With a max age that is not negative, a sweep never touches an
    entry whose modification time is the timestamp of the sweep or later
    (a file written while the sweep runs, or dated in the future by a
    skewed clock): in a directory that holds its entries under file
    names, no removal is attempted on it and it stays as it is. *)
Theorem fresh_entries_survive s d name i :
  mu (gc s) = false →
  fs (world s) !! dir (gc s) = Some d → d_open d = None → d_readdir d = None →
  file_names d = true →
  d_entries d !! name = Some i →
  0 <= maxAge (gc s) →
  clock (world s) <= i_mtime i →
  ∃ d',
    fs (world (Collect s).2) !! dir (gc s) = Some d'
    ∧ d_entries d' !! name = Some i
    ∧ (filepath_Join (dir (gc s)) name
         ∉ removals (since (length (trace (world s))) (world (Collect s).2))).
Proof.
  intros Hmu Hd Ho Hr Hnames Hi Hage Hfresh.
  assert (eligible (clock (world s)) (maxAge (gc s)) (file_info (name, i)) = false)
    as Hel.
  { apply not_true_is_false. rewrite eligible_file_info. intros (_ & _ & H).
    pose proof (time_Sub_mono (clock (world s)) (i_mtime i) (i_mtime i) Hfresh)
      as Hmono.
    assert (time_Sub (i_mtime i) (i_mtime i) = 0) as Hzero.
    { rewrite time_Sub_exact; [lia|].
      unfold is_Duration, minDuration, maxDuration. lia. }
    lia. }
  destruct (Collect_sweep_names s d Hmu Hd Ho Hr Hnames)
    as (s' & d' & HC & Hd' & _ & He).
  destruct (He name i Hi) as (Hin & Hkeep & _).
  rewrite HC. cbn [snd]. exists d'. split; [done|]. split; [by apply Hkeep|].
  rewrite Hin. by rewrite Hel.
Qed.

Lemma fresh_entries_survive_witness :
  ∃ d', fs (world (Collect example_system).2) !! "/var/sessions" = Some d'
        ∧ is_Some (d_entries d' !! "session_2").
Proof.
  destruct (fresh_entries_survive example_system example_node "session_2"
              {| i_mode := ModeRegular; i_mtime := example_now;
                 i_unlink := None |})
    as (d' & H1 & H2 & _);
    [reflexivity|vm_compute; reflexivity|reflexivity|reflexivity
    |vm_compute; reflexivity|vm_compute; reflexivity
    |vm_compute; discriminate|vm_compute; discriminate|].
  exists d'. split; [exact H1|]. rewrite H2. eexists. reflexivity.
Defined.

(** * Further properties of the lifecycle *)

(** X8.  Start with an interval that is zero or negative panics
    (time.NewTicker refuses it), and the panic leaves everything as it
    was: the mutex is released by the deferred Unlock, the collector is
    still stopped, and no ticker or goroutine has been made.  A program
    that does not recover dies of it. *)
Theorem Start_rejects_nonpositive_interval s :
  mu (gc s) = false → ticker (gc s) = None → interval (gc s) <= 0 →
  Start s = (Panicked "non-positive interval for NewTicker", s)
  ∧ step CallStart s
    = Some (Crashed "non-positive interval for NewTicker" s).
Proof.
  intros Hmu Ht Hi. cbn [step]. by rewrite Start_panics.
Qed.

Lemma Start_rejects_nonpositive_interval_witness :
  Start (with_gc (set_interval 0) example_system)
  = (Panicked "non-positive interval for NewTicker",
     with_gc (set_interval 0) example_system)
  ∧ step CallStart (with_gc (set_interval 0) example_system)
    = Some (Crashed "non-positive interval for NewTicker"
              (with_gc (set_interval 0) example_system)).
Proof.
  apply (Start_rejects_nonpositive_interval (with_gc (set_interval 0) example_system));
    [reflexivity|reflexivity|vm_compute; discriminate].
Defined.

(** X9.  Start and Stop are idempotent: two calls of Start in a row do
    what one does (one ticker, one goroutine; also when the call
    panics), and so do two calls of Stop, from every state of the
    collector, running or stopped. *)
Theorem Start_and_Stop_twice s :
  mu (gc s) = false →
  (Start ;; Start) s = Start s ∧ (Stop ;; Stop) s = Stop s.
Proof.
  intros Hmu. unfold bind. split.
  - destruct (ticker (gc s)) as [t|] eqn:Ht.
    + rewrite (Start_running s t) by done. by apply (Start_running s t).
    + destruct (decide (0 < interval (gc s))).
      * rewrite Start_stopped by done.
        by apply (Start_running (started s) (length (tickers s))).
      * by rewrite Start_panics by (done || lia).
  - destruct (ticker (gc s)) as [t|] eqn:Ht.
    + rewrite (Stop_running s t) by done. by apply Stop_stopped.
    + rewrite Stop_stopped by done. by apply Stop_stopped.
Qed.

Lemma Start_and_Stop_twice_witness :
  (Start ;; Start) example_system = Start example_system
  ∧ (Stop ;; Stop) example_system = Stop example_system.
Proof. apply (Start_and_Stop_twice example_system). reflexivity. Defined.

(** X10.  In every state that a program reaches from a fresh collector,
    whatever it calls and however the runtime schedules, the ticker that
    the collector holds is the one ticker that ticks: a ticker is active
    exactly when gc.ticker points to it, and gc.ticker never dangles.
    Between calls the mutex is free. *)
Theorem collector_holds_the_only_live_ticker g w ls s :
  mu g = false → ticker g = None →
  run ls (Alive (boot g w)) = Some (Alive s) →
  mu (gc s) = false
  ∧ (∀ t k, tickers s !! t = Some k →
            (active k = true ↔ ticker (gc s) = Some t))
  ∧ (∀ t, ticker (gc s) = Some t → is_Some (tickers s !! t)).
Proof.
  intros Hmu Ht Hrun.
  assert (consistent s) as [Hm Hopen Hact Hhan Hloop]
    by (eapply consistent_run; [by apply boot_consistent|done]).
  split; [done|]. split.
  - intros t k Hk. split; [by apply Hact|].
    intros Hh. destruct (Hhan t Hh) as (k' & Hk' & Ha). congruence.
  - intros t Hh. destruct (Hhan t Hh) as (k' & Hk' & _). eauto.
Qed.

Lemma collector_holds_the_only_live_ticker_witness :
  mu (gc (state_after [CallStart; Run 0; CallStop; CallStart] example_system))
  = false
  ∧ is_Some (tickers (state_after [CallStart; Run 0; CallStop; CallStart]
                        example_system) !! 1%nat).
Proof.
  destruct (collector_holds_the_only_live_ticker example_gc example_world
              [CallStart; Run 0; CallStop; CallStart]
              (state_after [CallStart; Run 0; CallStop; CallStart] example_system))
    as (H1 & _ & H3); [reflexivity|reflexivity|vm_compute; reflexivity|].
  split; [exact H1|]. apply H3. vm_compute. reflexivity.
Defined.

Lemma ticker_field_step l s s' :
  mu (gc s) = false → is_CallStart l = false →
  step l s = Some (Alive s') →
  ticker (gc s) = None → ticker (gc s') = None.
Proof.
  intros Hmu Hl Hs Ht. apply step_alive in Hs; [|done].
  destruct l as [d|d| | | |d|t|i]; try done.
  - by subst s'.
  - by subst s'.
  - by destruct Hs as [(_ & ->)|(t & _ & ->)].
  - subst s'. by destruct (Collect_frame s) as (-> & _).
  - by destruct Hs as [_ ->].
  - by destruct Hs as (k & _ & _ & _ & ->).
  - destruct Hs as [(_ & t' & ? & ->)|[(t' & k' & _ & _ & _ & ->)
      |[(t' & k' & _ & _ & _ & _ & ->)|(t' & _ & ->)]]]; simpl; try done.
    by destruct (Collect_frame s) as (-> & _).
Qed.

(** X11.  After Stop the schedule is silent until the next Start: from
    any state that a program reaches, Stop returns, and in everything
    that follows without a call of Start the collector stays stopped and
    no ticker can send a tick. *)
Theorem Stop_silences_schedule g w ls0 s :
  mu g = false → ticker g = None →
  run ls0 (Alive (boot g w)) = Some (Alive s) →
  ∃ s1,
    Stop s = (Returned tt, s1)
    ∧ ∀ ls s2,
        forallb (λ l, negb (is_CallStart l)) ls = true →
        run ls (Alive s1) = Some (Alive s2) →
        ticker (gc s2) = None ∧ ∀ t, step (Fire t) s2 = None.
Proof.
  intros Hmu Ht Hrun0.
  assert (consistent s) as Hc
    by (eapply consistent_run; [by apply boot_consistent|done]).
  assert (∃ s1, Stop s = (Returned tt, s1) ∧ ticker (gc s1) = None)
    as (s1 & HS & Ht1).
  { destruct (ticker (gc s)) as [t|] eqn:Hts.
    - exists (halted t s). split; [|done].
      apply Stop_running; [by destruct Hc|done].
    - exists s. split; [|done]. apply Stop_stopped; [by destruct Hc|done]. }
  assert (consistent s1) as Hc1.
  { apply (consistent_step CallStop s s1 Hc). cbn [step]. by rewrite HS. }
  exists s1. split; [done|]. intros ls s2 Hls Hrun.
  assert (consistent s2 ∧ ticker (gc s2) = None) as [Hc2 Ht2].
  { revert Hrun.
    apply (run_invariant_where (λ l, negb (is_CallStart l))
             (λ s, consistent s ∧ ticker (gc s) = None)); [|done|done].
    intros l sa sb Hl [Hca Hta] Hstep. apply negb_true_iff in Hl.
    split; [by eapply consistent_step|].
    eapply ticker_field_step; [by destruct Hca|done|done|done]. }
  split; [done|]. intros t. cbn [step].
  destruct (tickers s2 !! t) as [k|] eqn:Hk; [|done].
  destruct (active k) eqn:Ha; [|done].
  pose proof (cs_active s2 Hc2 t k Hk Ha). congruence.
Qed.

Lemma Stop_silences_schedule_witness :
  ∃ s1, Stop (state_after example_schedule example_system) = (Returned tt, s1)
        ∧ ticker (gc s1) = None.
Proof.
  destruct (Stop_silences_schedule example_gc example_world example_schedule
              (state_after example_schedule example_system))
    as (s1 & H1 & H2); [reflexivity|reflexivity|vm_compute; reflexivity|].
  exists s1. split; [exact H1|].
  destruct (H2 [] s1) as [H3 _]; [reflexivity|reflexivity|]. exact H3.
Defined.

(** X13.  The loop of the goroutine drops the result of Collect: whether
    the sweep succeeds or returns an error (the directory is gone, say),
    the step is the sweep itself and the goroutine is back at the
    channel, waiting for the next tick. *)
Theorem loop_ignores_error s i t :
  mu (gc s) = false →
  goroutines s !! i = Some (GoBody t) →
  ∃ s',
    step (Run i) s = Some (Alive s')
    ∧ world s' = world (Collect s).2
    ∧ gc s' = gc s ∧ tickers s' = tickers s
    ∧ goroutines s' = <[i := GoReceive t]> (goroutines s)
    ∧ goroutines s' !! i = Some (GoReceive t).
Proof.
  intros Hmu Hg. destruct (Collect_returns s Hmu) as [r Hr].
  destruct (Collect_frame s) as (Hgc & Htk & Hgr).
  exists (with_goroutines (λ gs, <[i := GoReceive t]> gs) (Collect s).2).
  split; [cbn [step]; by rewrite Hg, Hr|]. split; [done|]. split; [done|].
  split; [done|]. simpl. rewrite Hgr. split; [done|].
  apply list_lookup_insert_eq. by eapply lookup_lt_Some.
Qed.

Lemma loop_ignores_error_witness :
  ∃ s', dir_error (state_after example_schedule example_gone) = Some ENOENT
        ∧ step (Run 0) (state_after example_schedule example_gone)
          = Some (Alive s')
        ∧ goroutines s' !! 0%nat = Some (GoReceive 0).
Proof.
  destruct (loop_ignores_error (state_after example_schedule example_gone) 0 0)
    as (s' & H1 & _ & _ & _ & _ & H2); [reflexivity|vm_compute; reflexivity|].
  exists s'. split; [reflexivity|]. split; [exact H1|exact H2].
Defined.

(** X12.  The first collection happens after the set interval, not
    before: whatever the runtime does after Start on a fresh collector
    (time passing, ticks, goroutine steps), as long as less than one
    interval has passed since the call no system call has been made and
    the file system is as it was. *)
Theorem no_sweep_before_first_interval g w ls s :
  mu g = false → ticker g = None → 0 < interval g →
  forallb runtime_step ls = true →
  run (CallStart :: ls) (Alive (boot g w)) = Some (Alive s) →
  clock (world s) < clock w + interval g →
  trace (world s) = trace w ∧ fs (world s) = fs w.
Proof.
  intros Hmu Ht Hi Hls Hrun Hclk.
  cbn [run step] in Hrun. rewrite (Start_stopped (boot g w)) in Hrun by done.
  cbn [complete] in Hrun.
  set (k0 := new_ticker (boot g w)).
  set (P := λ s : System,
         mu (gc s) = false ∧ ticker (gc s) = Some 0%nat
         ∧ clock w <= clock (world s)
         ∧ (clock (world s) < clock w + interval g →
            tickers s = [k0]
            ∧ (goroutines s = [GoSpawned] ∨ goroutines s = [GoReceive 0])
            ∧ trace (world s) = trace w ∧ fs (world s) = fs w)).
  assert (P s) as (_ & _ & _ & HP); [|by destruct (HP Hclk) as (_ & _ & ? & ?)].
  revert Hrun. apply (run_invariant_where runtime_step P); [|done|].
  - clear s Hclk. intros l s s' Hl (Hm & Hh & Hc & HP) Hstep.
    apply step_alive in Hstep; [|done].
    destruct l as [d|d| | | |d|t|i]; try done.
    + destruct Hstep as [Hd ->]. unfold P; simpl.
      split; [done|]. split; [done|]. split; [lia|]. intros H. apply HP. lia.
    + destruct Hstep as (k & Hk & Ha & Hn & ->). unfold P; simpl.
      split; [done|]. split; [done|]. split; [done|]. intros H.
      destruct (HP H) as (Htk & _). rewrite Htk in Hk.
      apply list_lookup_singleton_Some in Hk as [-> <-]. simpl in Hn. lia.
    + destruct Hstep as [(Hg & t & Htt & ->)|[(t & k & Hg & Hk & Hp & ->)
        |[(t & k & Hg & Hk & Hp & Hcl & ->)|(t & Hg & ->)]]]; unfold P; simpl.
      * split; [done|]. split; [done|]. split; [done|]. intros H.
        destruct (HP H) as (Htk & Hgs & Htr & Hfs). repeat split; try done.
        assert (t = 0%nat) as -> by congruence. right.
        destruct Hgs as [Hgs|Hgs]; rewrite Hgs in Hg |- *.
        -- by apply list_lookup_singleton_Some in Hg as [-> _].
        -- by apply list_lookup_singleton_Some in Hg as [-> ?].
      * split; [done|]. split; [done|]. split; [done|]. intros H.
        destruct (HP H) as (Htk & _). rewrite Htk in Hk.
        by apply list_lookup_singleton_Some in Hk as [-> <-].
      * split; [done|]. split; [done|]. split; [done|]. intros H.
        destruct (HP H) as (Htk & _). rewrite Htk in Hk.
        by apply list_lookup_singleton_Some in Hk as [-> <-].
      * destruct (Collect_frame s) as (Hgc & _). rewrite Hgc, Collect_clock.
        split; [done|]. split; [done|]. split; [done|]. intros H.
        destruct (HP H) as (_ & Hgs & _).
        destruct Hgs as [Hgs|Hgs]; rewrite Hgs in Hg;
          by apply list_lookup_singleton_Some in Hg as [_ ?].
  - unfold P; simpl. split; [done|]. split; [done|]. split; [lia|]. intros _.
    repeat split; auto.
Qed.

Lemma no_sweep_before_first_interval_witness :
  (∃ s, run [CallStart; Run 0; Advance (50 * Millisecond)]
          (Alive (boot test_gc test_world)) = Some (Alive s)
        ∧ trace (world s) = [] ∧ fs (world s) = fs test_world)
  ∧ step (Fire 0)
      (state_after [CallStart; Run 0; Advance (50 * Millisecond)]
         (boot test_gc test_world)) = None.
Proof.
  split; [|vm_compute; reflexivity].
  exists (state_after [CallStart; Run 0; Advance (50 * Millisecond)]
            (boot test_gc test_world)).
  split; [vm_compute; reflexivity|].
  apply (no_sweep_before_first_interval test_gc test_world
           [Run 0; Advance (50 * Millisecond)]).
  - reflexivity.
  - reflexivity.
  - reflexivity.
  - reflexivity.
  - vm_compute. reflexivity.
  - vm_compute. reflexivity.
Defined.

(** X14.  The two ways in which the program can die.  A step ends the
    program exactly when it is a call of Start on a stopped collector
    whose interval is not positive, or the first step of a goroutine that
    finds gc.ticker nil because Stop has run before it was scheduled (the
    range expression gc.ticker.C is read without the mutex).  No call of
    MaxAge, Interval, Stop or Collect and no tick ever panics. *)
Theorem crash_causes l s msg s' :
  mu (gc s) = false →
  step l s = Some (Crashed msg s') ↔
  s' = s
  ∧ ((l = CallStart ∧ ticker (gc s) = None ∧ interval (gc s) <= 0
      ∧ msg = "non-positive interval for NewTicker")
     ∨ (∃ i, l = Run i ∧ goroutines s !! i = Some GoSpawned
             ∧ ticker (gc s) = None
             ∧ msg
               = "runtime error: invalid memory address or nil pointer dereference")).
Proof.
  intros Hmu. split.
  - intros Hs. destruct l as [d|d| | | |d|t|i]; cbn [step] in Hs.
    + by rewrite MaxAge_unlocked in Hs.
    + by rewrite Interval_unlocked in Hs.
    + destruct (ticker (gc s)) as [t|] eqn:Ht.
      * by rewrite (Start_running s t) in Hs.
      * destruct (decide (0 < interval (gc s))).
        -- by rewrite Start_stopped in Hs.
        -- rewrite Start_panics in Hs by (done || lia). simplify_eq/=.
           split; [done|]. left. repeat split; try done. lia.
    + destruct (ticker (gc s)) as [t|] eqn:Ht.
      * by rewrite (Stop_running s t) in Hs.
      * by rewrite Stop_stopped in Hs.
    + destruct (Collect_returns s Hmu) as [r Hr]. by rewrite Hr in Hs.
    + by destruct (0 <=? d).
    + destruct (tickers s !! t) as [k|]; [|done].
      by destruct (active k && (next_tick k <=? clock (world s))).
    + destruct (goroutines s !! i) as [[|t|t|]|] eqn:Hg; try done.
      * destruct (ticker (gc s)) as [t|] eqn:Ht; [done|]. simplify_eq/=.
        split; [done|]. right. exists i. by repeat split.
      * destruct (tickers s !! t) as [k|]; [|done].
        destruct (pending k); [done|]. by destruct (closed k).
      * destruct (Collect_returns s Hmu) as [r Hr]. by rewrite Hr in Hs.
  - intros [-> [(-> & Ht & Hi & ->)|(i & -> & Hg & Ht & ->)]]; cbn [step].
    + by rewrite Start_panics.
    + by rewrite Hg, Ht.
Qed.

Lemma crash_causes_witness :
  step (Run 0) (state_after [CallStart; CallStop] example_system)
  = Some (Crashed
            "runtime error: invalid memory address or nil pointer dereference"
            (state_after [CallStart; CallStop] example_system)).
Proof.
  apply (crash_causes (Run 0) (state_after [CallStart; CallStop] example_system));
    [reflexivity|].
  split; [reflexivity|]. right. exists 0%nat.
  split; [reflexivity|]. split; [vm_compute; reflexivity|].
  split; reflexivity.
Defined.

(** X15.  The setters compose as field updates: MaxAge and Interval
    commute, the later of two calls of the same setter wins, and a chain
    such as New(dir).MaxAge(a).Interval(b) yields a collector with these
    two values and everything else, the ticker of a running collector
    included, as it was. *)
Theorem setters_compose s a a' b b' :
  mu (gc s) = false →
  (MaxAge a ;; Interval b) s = (Interval b ;; MaxAge a) s
  ∧ (MaxAge a ;; MaxAge a') s = MaxAge a' s
  ∧ (Interval b ;; Interval b') s = Interval b' s
  ∧ ∃ s', (MaxAge a ;; Interval b) s = (Returned tt, s')
          ∧ maxAge (gc s') = a ∧ interval (gc s') = b
          ∧ dir (gc s') = dir (gc s) ∧ ticker (gc s') = ticker (gc s)
          ∧ mu (gc s') = false
          ∧ tickers s' = tickers s ∧ goroutines s' = goroutines s
          ∧ world s' = world s.
Proof.
  intros Hmu. unfold bind.
  rewrite !(MaxAge_unlocked _ s), !(Interval_unlocked _ s) by done.
  rewrite !MaxAge_unlocked, !Interval_unlocked by done.
  split; [done|]. split; [done|]. split; [done|].
  eexists. split; [reflexivity|]. by repeat split.
Qed.

Lemma setters_compose_witness :
  ∃ s', (MaxAge (12 * Hour) ;; Interval (30 * Minute)) example_system
        = (Returned tt, s')
        ∧ maxAge (gc s') = 12 * Hour ∧ interval (gc s') = 30 * Minute.
Proof.
  destruct (setters_compose example_system (12 * Hour) 0 (30 * Minute) 0)
    as (_ & _ & _ & s' & H1 & H2 & H3 & _); [reflexivity|].
  exists s'. split; [exact H1|]. split; [exact H2|exact H3].
Defined.

(** X16.  Stop undoes Start as far as the collector goes: after Start and
    Stop the record of the collector is equal to the one before, so that
    it can be started again, and the world is untouched.  What the pair
    of calls leaves behind is in the runtime: one stopped ticker and the
    goroutine that was spawned. *)
Theorem Start_then_Stop_restores_collector s :
  mu (gc s) = false → ticker (gc s) = None → 0 < interval (gc s) →
  ∃ s2,
    (Start ;; Stop) s = (Returned tt, s2)
    ∧ gc s2 = gc s ∧ world s2 = world s
    ∧ tickers s2 = tickers s ++ [stopped (new_ticker s)]
    ∧ goroutines s2 = goroutines s ++ [GoSpawned].
Proof.
  intros Hmu Ht Hi. exists (halted (length (tickers s)) (started s)).
  split.
  - unfold bind. rewrite Start_stopped by done.
    by apply (Stop_running (started s) (length (tickers s))).
  - split; [destruct s as [[] ? ? ?]; simpl in *; by subst|].
    split; [done|]. split; [|done]. simpl. apply alter_snoc.
Qed.

Lemma Start_then_Stop_restores_collector_witness :
  ∃ s2, (Start ;; Stop) example_system = (Returned tt, s2)
        ∧ gc s2 = example_gc.
Proof.
  destruct (Start_then_Stop_restores_collector example_system)
    as (s2 & H1 & H2 & _); [reflexivity|reflexivity|reflexivity|].
  exists s2. split; [exact H1|exact H2].
Defined.

(** *** The scheduled sweep *)

Lemma Collect_failed_world s e :
  mu (gc s) = false → dir_error s = Some e →
  Collect s = (Returned (Some e), with_world (Collect_world_failed (gc s)) s).
Proof.
  intros Hmu He. unfold dir_error in He.
  unfold with_world, Collect_world_failed.
  unfold Collect. unfold bind at 1. unfold Lock. rewrite Hmu.
  unfold defer at 1. unfold bind at 1. unfold gets at 1.
  unfold bind at 1. unfold sys at 1. unfold os_Open. simpl.
  destruct (fs (world s) !! dir (gc s)) as [d|] eqn:Hd.
  - destruct (d_open d) as [e'|] eqn:Ho.
    + simplify_eq. simpl. unfold with_gc; simpl.
      by rewrite (unlocked_set_mu _ Hmu).
    + unfold defer at 1. unfold bind at 1. unfold sys at 1, Readdir. simpl.
      rewrite Hd, He. simpl. unfold with_gc; simpl.
      by rewrite (unlocked_set_mu _ Hmu).
  - simplify_eq. simpl. unfold with_gc; simpl.
    by rewrite (unlocked_set_mu _ Hmu).
Qed.

(** What a sweep does to the world depends on the directory and the max
    age of the collector and on nothing else of the program. *)
Lemma Collect_world_indep s s' :
  mu (gc s) = false → mu (gc s') = false →
  dir (gc s) = dir (gc s') → maxAge (gc s) = maxAge (gc s') →
  world s = world s' →
  world (Collect s).2 = world (Collect s').2.
Proof.
  intros Hmu Hmu' Hdir Hage Hw.
  assert (dir_error s' = dir_error s) as Herr
    by (unfold dir_error; by rewrite Hdir, Hw).
  destruct (dir_error s) as [e|] eqn:He.
  - rewrite (Collect_failed_world s e), (Collect_failed_world s' e) by done.
    unfold with_world, Collect_world_failed; cbn [snd world].
    by rewrite Hdir, Hw.
  - destruct (dir_error_None s He) as (d & Hd & Ho & Hr).
    rewrite (Collect_listed s d) by done.
    rewrite (Collect_listed s' d) by (done || by rewrite <- Hdir, <- Hw).
    unfold with_world, Collect_world; cbn [snd world].
    by rewrite Hdir, Hage, Hw.
Qed.

(** X17.  One interval after Start the schedule delivers: once that much
    time has passed the ticker can tick, the goroutine takes the tick,
    and the sweep it runs does to the world exactly what a call of
    Collect at that instant does; the goroutine is then back at the
    channel and the collector still runs.  On the directory of TestGC
    this removes session_1 and keeps session_2. *)
Theorem first_tick_runs_a_sweep g w :
  mu g = false → ticker g = None → 0 < interval g →
  ∃ s,
    run [CallStart; Run 0; Advance (interval g); Fire 0; Run 0; Run 0]
      (Alive (boot g w)) = Some (Alive s)
    ∧ world s = world (Collect (advance (interval g) (boot g w))).2
    ∧ clock (world s) = clock w + interval g
    ∧ ticker (gc s) = Some 0%nat
    ∧ goroutines s = [GoReceive 0].
Proof.
  intros Hmu Ht Hi.
  set (s0 := boot g w).
  set (s2 := with_goroutines (λ gs, <[0%nat := GoReceive 0]> gs) (started s0)).
  set (s3 := advance (interval g) s2).
  set (s4 := with_tickers (λ ts, <[0%nat := ticked (new_ticker s0)]> ts) s3).
  set (s5 := with_goroutines (λ gs, <[0%nat := GoBody 0]> gs)
               (with_tickers
                  (λ ts, <[0%nat := received (ticked (new_ticker s0))]> ts) s4)).
  assert (mu (gc s5) = false) as Hmu5 by done.
  destruct (Collect_returns s5 Hmu5) as [r Hr].
  destruct (Collect_frame s5) as (Hgc & Htk & Hgr).
  exists (with_goroutines (λ gs, <[0%nat := GoReceive 0]> gs) (Collect s5).2).
  split.
  { cbn [run step]. rewrite (Start_stopped s0) by done. cbn [complete].
    change (goroutines (started s0) !! 0%nat) with (Some GoSpawned).
    change (ticker (gc (started s0))) with (Some 0%nat). cbn match. fold s2.
    assert ((0 <=? interval g) = true) as -> by lia. fold s3.
    change (tickers s3 !! 0%nat) with (Some (new_ticker s0)). cbn match.
    change (active (new_ticker s0)) with true.
    change (next_tick (new_ticker s0)) with (clock w + interval g).
    change (clock (world s3)) with (clock w + interval g).
    rewrite Z.leb_refl. cbn [andb]. fold s4.
    change (goroutines s4 !! 0%nat) with (Some (GoReceive 0)). cbn match.
    change (tickers s4 !! 0%nat) with (Some (ticked (new_ticker s0))). cbn match.
    change (pending (ticked (new_ticker s0))) with true. cbn match. fold s5.
    change (goroutines s5 !! 0%nat) with (Some (GoBody 0)). cbn match.
    by rewrite Hr. }
  split.
  { cbn [world with_goroutines]. by apply Collect_world_indep. }
  split.
  { cbn [world with_goroutines]. by rewrite Collect_clock. }
  split.
  { cbn [gc with_goroutines]. by rewrite Hgc. }
  cbn [goroutines with_goroutines]. by rewrite Hgr.
Qed.

Lemma first_tick_runs_a_sweep_witness :
  ∃ s d,
    run [CallStart; Run 0; Advance (100 * Millisecond); Fire 0; Run 0; Run 0]
      (Alive (boot test_gc test_world)) = Some (Alive s)
    ∧ fs (world s) !! "/tmp/fsgc" = Some d
    ∧ d_entries d !! "session_1" = None
    ∧ is_Some (d_entries d !! "session_2").
Proof.
  destruct (first_tick_runs_a_sweep test_gc test_world)
    as (s & H1 & H2 & _); [reflexivity|reflexivity|reflexivity|].
  exists s. rewrite H2. eexists. split; [exact H1|].
  split; [vm_compute; reflexivity|]. split; [vm_compute; reflexivity|].
  vm_compute. eexists. reflexivity.
Defined.
